(** * tschema: deriving JSON Schema from TypeScript type aliases

    A shallow embedding of [src/index.ts] and the properties of its
    resolution engine ([resolve], [getTypeDefinition]) and of the schema
    projections ([pickProperties], [dropProperties]).

    Modelling conventions.
    - A JavaScript object is a sequence of own properties in insertion order
      ([object]); every object lives in a store ([heap]) and is denoted by
      its address ([VRef]), so two references to one object observe each
      other's writes.  Arrays are never written after they are built
      (the program has no [push], no indexed store), so they are immutable
      lists of values.
    - Every object the program builds is an object literal, so its
      prototype is [Object.prototype], taken as the runtime ships it: a
      read under a computed key that finds no own property is answered by
      the member of [Object.prototype] of that name, when there is one
      ([obj_lookup]).  The field names the program spells out ([type],
      [properties], [required], [enum], [allOf], [oneOf], [anyOf]) are no
      such members, and are read among the own properties ([obj_read]).
      An assignment [o[k] = v] defines or overwrites the own property [k]
      (the setter behind the name [__proto__] is not represented).
    - [Object.keys] lists the own property names that are array indices
      first, in ascending numeric order, and then the other names in the
      order in which they were defined ([own_property_keys]).
    - Operations whose JavaScript meaning needs machinery that is not
      represented (the indexed properties of a string primitive, the string
      conversion of an object) end in the outcome [Unmodelled] rather than
      in an invented answer.
    - Recursion is bounded by a fuel argument; [OutOfFuel] is an outcome of
      its own and never stands for a JavaScript result.
    - Console output ([console.log]) is not represented. *)

From Stdlib Require Import PrimFloat.
From Stdlib Require Import NArith Ascii.
From stdpp Require Import gmap strings list.

Set Warnings "-register-all".
Local Open Scope string_scope.
Local Open Scope list_scope.

(** ** JavaScript values *)

(** A JavaScript number is an IEEE 754 binary64. *)
Definition number := float.

Definition loc := nat.

Inductive value :=
| VUndef
| VStr (s : string)
| VNum (x : number)
| VArr (elems : list value)
| VRef (l : loc)
| VBuiltin (name : string).  (* the member [name] of [Object.prototype] *)

(** Own properties, oldest first; keys are pairwise distinct. *)
Definition object := list (string * value).

Definition value_of_comment (c : option string) : value :=
  match c with
  | Some s => VStr s
  | None => VUndef
  end.

(** ToBoolean. *)
Definition truthy (v : value) : bool :=
  match v with
  | VUndef => false
  | VStr s => negb (String.eqb s "")
  | VNum x => negb (PrimFloat.is_zero x || PrimFloat.is_nan x)
  | VArr _ => true
  | VRef _ => true
  | VBuiltin _ => true
  end.

(** [v === "..."] against a string constant. *)
Definition strict_eq_str (v : value) (s : string) : bool :=
  match v with
  | VStr s' => String.eqb s' s
  | _ => false
  end.

(** The comparison made by [Array.prototype.includes].  Objects are compared
    by address; an array has no address here and compares unequal. *)
Definition SameValueZero (a b : value) : bool :=
  match a, b with
  | VUndef, VUndef => true
  | VStr s, VStr s' => String.eqb s s'
  | VNum x, VNum y =>
      PrimFloat.eqb x y || (PrimFloat.is_nan x && PrimFloat.is_nan y)
  | VRef l, VRef l' => Nat.eqb l l'
  | VBuiltin k, VBuiltin k' => String.eqb k k'
  | _, _ => false
  end.

Definition includes (l : list value) (x : value) : bool :=
  existsb (SameValueZero x) l.

(** *** Own-property operations *)

Fixpoint obj_get (k : string) (o : object) : option value :=
  match o with
  | [] => None
  | (k', v) :: o' => if String.eqb k k' then Some v else obj_get k o'
  end.

(** [o.k] among the own properties: an absent property reads
    [undefined]. *)
Definition obj_read (k : string) (o : object) : value :=
  default VUndef (obj_get k o).

(** The property names of [Object.prototype]: functions, and the accessor
    [__proto__], which reads as [Object.prototype] itself.  All of them are
    truthy. *)
Definition Object_prototype : list string :=
  ["constructor"; "__defineGetter__"; "__defineSetter__"; "hasOwnProperty";
   "__lookupGetter__"; "__lookupSetter__"; "isPrototypeOf";
   "propertyIsEnumerable"; "toString"; "valueOf"; "__proto__";
   "toLocaleString"].

(** What [Object.prototype] answers under [k]. *)
Definition inherited (k : string) : value :=
  if existsb (String.eqb k) Object_prototype then VBuiltin k else VUndef.

(** [o[k]]: the own property when there is one, and otherwise what the
    prototype answers. *)
Definition obj_lookup (k : string) (o : object) : value :=
  default (inherited k) (obj_get k o).

(** The same read on an object that is kept as a finite map. *)
Definition map_lookup (m : gmap string value) (k : string) : value :=
  default (inherited k) (m !! k).

(** [o[k] = v]: an existing property keeps its place, a new one goes last. *)
Fixpoint obj_set (k : string) (v : value) (o : object) : object :=
  match o with
  | [] => [(k, v)]
  | (k', v') :: o' =>
      if String.eqb k k' then (k', v) :: o' else (k', v') :: obj_set k v o'
  end.

(** [delete o[k]]. *)
Fixpoint obj_delete (k : string) (o : object) : object :=
  match o with
  | [] => []
  | (k', v') :: o' =>
      if String.eqb k k' then obj_delete k o' else (k', v') :: obj_delete k o'
  end.

Definition obj_keys (o : object) : list string := map fst o.

(** *** The order of [Object.keys]

    A property name is an array index when it is the decimal form, without
    sign or leading zero, of an integer below [2^32 - 1]. *)

Definition digit (c : ascii) : option N :=
  let n := N_of_ascii c in
  if (48 <=? n)%N && (n <=? 57)%N then Some (n - 48)%N else None.

Fixpoint digits (s : string) (acc : N) : option N :=
  match s with
  | EmptyString => Some acc
  | String c s' =>
      match digit c with
      | Some d => digits s' (10 * acc + d)%N
      | None => None
      end
  end.

Definition array_index (s : string) : option N :=
  match s with
  | EmptyString => None
  | String c s' =>
      if Ascii.eqb c "0" && negb (String.eqb s' "") then None
      else
        match digits s 0 with
        | Some n => if (n <? 4294967295)%N then Some n else None
        | None => None
        end
  end.

Definition is_array_index (s : string) : bool :=
  match array_index s with
  | Some _ => true
  | None => false
  end.

Fixpoint insert_index (x : N * string) (l : list (N * string))
  : list (N * string) :=
  match l with
  | [] => [x]
  | y :: l' =>
      if (fst x <=? fst y)%N then x :: l else y :: insert_index x l'
  end.

Definition sort_indices (l : list (N * string)) : list (N * string) :=
  fold_right insert_index [] l.

(** The own property names in the order in which [Object.keys] lists
    them. *)
Definition own_property_keys (o : object) : list string :=
  map snd
    (sort_indices
       (omap (fun k => match array_index k with
                       | Some n => Some (n, k)
                       | None => None
                       end) (obj_keys o)))
  ++ List.filter (fun k => negb (is_array_index k)) (obj_keys o).

(** [{...dst, ...src}]: the properties of [src] are defined one after the
    other on top of [dst]. *)
Definition obj_assign (dst src : object) : object :=
  fold_left (fun acc kv => obj_set (fst kv) (snd kv) acc) src dst.

(** ** The TypeScript syntax tree, as far as the program inspects it *)

(** The tags that [ts.getJSDocTags(t.parent)] yields, in order: tag name and
    comment (a tag may have no comment).  A node without parent has none. *)
Definition JSDocTags := list (string * option string).

Inductive KeywordKind :=
| StringKeyword | NumberKeyword | BooleanKeyword | NullKeyword
| UndefinedKeyword
| OtherKeyword.            (* any, unknown, never, void, object, ... *)

Inductive TypeOperatorKind := KeyOfKeyword | UniqueKeyword | ReadonlyKeyword.

Inductive LiteralExpression :=
| StringLiteral (text : string)
| NumericLiteral (text : string)
| OtherLiteral.            (* true, false, -1, template literals, ... *)

Inductive TypeNode :=
| KeywordTypeNode (tags : JSDocTags) (kind : KeywordKind)
| TypeLiteralNode (tags : JSDocTags) (members : list TypeElement)
| ArrayTypeNode (tags : JSDocTags) (elementType : TypeNode)
| TypeReferenceNode (tags : JSDocTags) (typeName : string)
    (typeArguments : option (list TypeNode))
| LiteralTypeNode (tags : JSDocTags) (literal : LiteralExpression)
| UnionTypeNode (tags : JSDocTags) (types : list TypeNode)
| IntersectionTypeNode (tags : JSDocTags) (types : list TypeNode)
| TypeOperatorNode (tags : JSDocTags) (operator : TypeOperatorKind)
    (type : TypeNode)
| ConditionalTypeNode (tags : JSDocTags)
    (checkType extendsType trueType falseType : TypeNode)
| OtherTypeNode (tags : JSDocTags)   (* tuples, functions, mapped types, ... *)
with TypeElement :=
| PropertySignature (name : string) (questionToken : bool)
    (type : option TypeNode)
| OtherSignature.          (* methods, index and call signatures *)

(** [jsdocTag[tag.tagName.text] = tag.comment] for every tag, from [{}]. *)
Definition jsdocTag (tags : JSDocTags) : object :=
  fold_left (fun acc tc => obj_set (fst tc) (value_of_comment (snd tc)) acc)
    tags [].

(** ** Program state and outcomes *)

Record state := mkState {
  resolved : gmap string value;   (* const resolved = {} *)
  heap : list object;             (* every object allocated so far *)
}.

Inductive error :=
| NotFound (name : string)        (* new Error(`"${name}" not found`) *)
| UnsupportedNode                 (* new Error("unsupported node") *)
| BadConditional                  (* new Error(`bad conditional type, ...`) *)
| TypeError.                      (* raised by the JavaScript runtime *)

Inductive outcome (A : Type) :=
| Returned (a : A) (σ : state)
| Thrown (e : error)
| Unmodelled
| OutOfFuel.

Arguments Returned {A} a σ.
Arguments Thrown {A} e.
Arguments Unmodelled {A}.
Arguments OutOfFuel {A}.

Definition M (A : Type) : Type := state -> outcome A.

Definition ret {A} (a : A) : M A := fun σ => Returned a σ.

Definition bind {A B} (m : M A) (k : A -> M B) : M B :=
  fun σ =>
    match m σ with
    | Returned a σ' => k a σ'
    | Thrown e => Thrown e
    | Unmodelled => Unmodelled
    | OutOfFuel => OutOfFuel
    end.

Definition throw {A} (e : error) : M A := fun _ => Thrown e.
Definition unmodelled {A} : M A := fun _ => Unmodelled.
Definition out_of_fuel {A} : M A := fun _ => OutOfFuel.

Notation "x <- m ;; k" := (bind m (fun x => k))
  (at level 100, m at next level, right associativity).
Notation "m ;;; k" := (bind m (fun _ => k))
  (at level 100, right associativity).

(** [l.map(f)] with a callback that runs in the store. *)
Fixpoint array_map {A B} (f : A -> M B) (l : list A) : M (list B) :=
  match l with
  | [] => ret []
  | a :: l' => b <- f a ;; bs <- array_map f l' ;; ret (b :: bs)
  end.

Fixpoint forEach {A} (f : A -> M unit) (l : list A) : M unit :=
  match l with
  | [] => ret tt
  | a :: l' => f a ;;; forEach f l'
  end.

(** *** The store *)

(** An object literal: a new object, distinct from every earlier one. *)
Definition alloc (o : object) : M value :=
  fun σ =>
    Returned (VRef (length (heap σ)))
      (mkState (resolved σ) (heap σ ++ [o])).

Definition load (l : loc) : M object :=
  fun σ =>
    match heap σ !! l with
    | Some o => Returned o σ
    | None => Unmodelled
    end.

Definition store (l : loc) (o : object) : M unit :=
  fun σ => Returned tt (mkState (resolved σ) (<[l := o]> (heap σ))).

(** [v.k], for the field names the program spells out: none of them is a
    member of [Object.prototype], so the read ends at the own properties. *)
Definition get_prop (v : value) (k : string) : M value :=
  match v with
  | VRef l => o <- load l ;; ret (obj_read k o)
  | VUndef => throw TypeError
  | _ => unmodelled
  end.

(** [v.k = x] *)
Definition set_prop (v : value) (k : string) (x : value) : M unit :=
  match v with
  | VRef l => o <- load l ;; store l (obj_set k x o)
  | VUndef => throw TypeError
  | _ => unmodelled
  end.

(** [delete v.k] *)
Definition delete_prop (v : value) (k : string) : M unit :=
  match v with
  | VRef l => o <- load l ;; store l (obj_delete k o)
  | VUndef => throw TypeError
  | _ => unmodelled
  end.

(** The properties that [{...v}] copies: the own enumerable ones, of which
    a member of [Object.prototype] has none. *)
Definition own_props (v : value) : M object :=
  match v with
  | VRef l => load l
  | VUndef => ret []
  | VNum _ => ret []
  | VBuiltin _ => ret []
  | _ => unmodelled
  end.

(** [Object.keys(v)] *)
Definition Object_keys (v : value) : M value :=
  match v with
  | VRef l => o <- load l ;; ret (VArr (map VStr (own_property_keys o)))
  | VUndef => throw TypeError
  | _ => unmodelled
  end.

(** The receiver of [forEach], [map] or [filter]: only an array has these
    methods, on anything else the call raises a TypeError. *)
Definition as_array (v : value) : M (list value) :=
  match v with
  | VArr l => ret l
  | _ => throw TypeError
  end.

(** *** Reading a schema back

    What [JSON.stringify] would walk: the value with every address replaced
    by the object stored there. *)

Inductive json :=
| JUndef
| JStr (s : string)
| JNum (x : number)
| JArr (elems : list json)
| JObj (fields : list (string * json)).

Fixpoint snapshot (fuel : nat) (h : list object) (v : value) : option json :=
  match fuel with
  | O => None
  | S n =>
      match v with
      | VUndef => Some JUndef
      | VStr s => Some (JStr s)
      | VNum x => Some (JNum x)
      | VArr l => JArr <$> mapM (snapshot n h) l
      | VRef l =>
          o ← h !! l;
          JObj <$> mapM (fun kv => pair (fst kv) <$> snapshot n h (snd kv)) o
      | VBuiltin k =>
          (* a function prints as nothing, [Object.prototype] as [{}] *)
          Some (if String.eqb k "__proto__" then JObj [] else JUndef)
      end
  end.

(** ** The program

    What the program takes from its environment is a parameter
    ([Environment]): the two conversions between numbers and their text, the
    type checker of the TypeScript compiler, and the table [decls] that
    [scan] fills before any resolution starts. *)

Inductive Operator :=
| OpArray | OpPartial | OpRequired | OpReadonly | OpPick | OpRecord
| OpExclude | OpExtract | OpOmit | OpDate | OpRegExp.

(** The [case] labels of [switch (t.typeName.getText())]. *)
Definition operator_of (typeName : string) : option Operator :=
  if String.eqb typeName "Array" then Some OpArray
  else if String.eqb typeName "Partial" then Some OpPartial
  else if String.eqb typeName "Required" then Some OpRequired
  else if String.eqb typeName "Readonly" then Some OpReadonly
  else if String.eqb typeName "Pick" then Some OpPick
  else if String.eqb typeName "Record" then Some OpRecord
  else if String.eqb typeName "Exclude" then Some OpExclude
  else if String.eqb typeName "Extract" then Some OpExtract
  else if String.eqb typeName "Omit" then Some OpOmit
  else if String.eqb typeName "Date" then Some OpDate
  else if String.eqb typeName "RegExp" then Some OpRegExp
  else None.

(** [t.members.filter(ts.isPropertySignature)] *)
Definition property_signatures (members : list TypeElement)
  : list (string * bool * option TypeNode) :=
  omap (fun m => match m with
                 | PropertySignature name q ty => Some (name, q, ty)
                 | OtherSignature => None
                 end) members.

(** [signatures.filter(s => s.questionToken == null).map(s => s.name.getText())] *)
Definition required_names (sigs : list (string * bool * option TypeNode))
  : list value :=
  omap (fun s => match s with
                 | (name, false, _) => Some (VStr name)
                 | (_, true, _) => None
                 end) sigs.

(** [t.types.filter(ts.isLiteralTypeNode).map(l => l.literal)] *)
Definition literals_of (types : list TypeNode) : list LiteralExpression :=
  omap (fun t => match t with
                 | LiteralTypeNode _ lit => Some lit
                 | _ => None
                 end) types.

(** [literals.filter(ts.isStringLiteral)], each with its [text]. *)
Definition string_literals (literals : list LiteralExpression) : list string :=
  omap (fun l => match l with StringLiteral s => Some s | _ => None end)
    literals.

(** [literals.filter(ts.isNumericLiteral)], each with its [text]. *)
Definition numeric_literals (literals : list LiteralExpression) : list string :=
  omap (fun l => match l with NumericLiteral s => Some s | _ => None end)
    literals.

(** [{ ...fields, ...jsdocTag }] *)
Definition object_literal (fields : object) (tags : JSDocTags) : M value :=
  alloc (obj_assign fields (jsdocTag tags)).

(** [{ ...def, ...jsdocTag }] *)
Definition spread_literal (def : value) (tags : JSDocTags) : M value :=
  o <- own_props def ;;
  object_literal o tags.

(** What the program takes from its environment. *)
Class Environment := {
  (* [String(x)] and [+text], as the runtime computes them *)
  number_to_string : number -> string;
  unary_plus : string -> number;
  (* [ts.TypeChecker]: semantic types, their flags and printed form *)
  tsType : Type;
  flags : tsType -> Z;
  getTypeFromTypeNode : TypeNode -> tsType;
  typeToString : tsType -> string;
  (* [const decls], complete before the first [resolve] *)
  decls : gmap string TypeNode;
}.

Section Engine.

Context {E : Environment}.

Definition ToPropertyKey (p : value) : M string :=
  match p with
  | VStr s => ret s
  | VNum x => ret (number_to_string x)
  | VUndef => ret "undefined"
  | _ => unmodelled
  end.

(** [target[p]]: the target is checked before the key is converted. *)
Definition get_index (target p : value) : M value :=
  match target with
  | VRef l => k <- ToPropertyKey p ;; o <- load l ;; ret (obj_lookup k o)
  | VUndef => throw TypeError
  | _ => unmodelled
  end.

Definition set_index (target p x : value) : M unit :=
  match target with
  | VRef l => k <- ToPropertyKey p ;; o <- load l ;; store l (obj_set k x o)
  | VUndef => throw TypeError
  | _ => unmodelled
  end.

Definition delete_index (target p : value) : M unit :=
  match target with
  | VRef l => k <- ToPropertyKey p ;; o <- load l ;; store l (obj_delete k o)
  | VUndef => throw TypeError
  | _ => unmodelled
  end.

(** ** Schema projections *)

(** [function pickProperties(def, keys)] *)
Fixpoint pickProperties (fuel : nat) (def keys : value) : M value :=
  match fuel with
  | O => out_of_fuel
  | S n =>
      let distribute (field : string) : M value :=
        o <- own_props def ;;
        children <- get_prop def field ;;
        cs <- as_array children ;;
        rs <- array_map (fun x => pickProperties n x keys) cs ;;
        alloc (obj_set "allOf" (VArr rs) o) in
      ty <- get_prop def "type" ;;
      if strict_eq_str ty "object" then
        properties <- alloc [] ;;
        ks <- as_array keys ;;
        forEach (fun p =>
                   dp <- get_prop def "properties" ;;
                   x <- get_index dp p ;;
                   set_index properties p x) ks ;;;
        o <- own_props def ;;
        req <- get_prop def "required" ;;
        reqs <- as_array req ;;
        alloc (obj_set "required" (VArr (List.filter (includes ks) reqs))
                 (obj_set "properties" properties o))
      else
        a <- get_prop def "allOf" ;;
        if truthy a then distribute "allOf" else
        b <- get_prop def "oneOf" ;;
        if truthy b then distribute "oneOf" else
        c <- get_prop def "anyOf" ;;
        if truthy c then distribute "anyOf" else
        ret VUndef
  end.

(** [function dropProperties(def, keys)] *)
Fixpoint dropProperties (fuel : nat) (def keys : value) : M value :=
  match fuel with
  | O => out_of_fuel
  | S n =>
      let distribute (field : string) : M value :=
        o <- own_props def ;;
        children <- get_prop def field ;;
        cs <- as_array children ;;
        rs <- array_map (fun x => dropProperties n x keys) cs ;;
        alloc (obj_set "allOf" (VArr rs) o) in
      ty <- get_prop def "type" ;;
      if strict_eq_str ty "object" then
        ks <- as_array keys ;;
        forEach (fun p =>
                   dp <- get_prop def "properties" ;;
                   delete_index dp p) ks ;;;
        o <- own_props def ;;
        req <- get_prop def "required" ;;
        reqs <- as_array req ;;
        alloc (obj_set "required"
                 (VArr (List.filter (fun x => negb (includes ks x)) reqs)) o)
      else
        a <- get_prop def "allOf" ;;
        if truthy a then distribute "allOf" else
        b <- get_prop def "oneOf" ;;
        if truthy b then distribute "oneOf" else
        c <- get_prop def "anyOf" ;;
        if truthy c then distribute "anyOf" else
        ret VUndef
  end.

(** [function isSameType(a, b)] *)
Definition isSameType (a b : tsType) : bool :=
  if negb (Z.eqb (flags a) (flags b)) then false
  else String.eqb (typeToString a) (typeToString b).

(** [function resolve(name)], over the derivation it calls.  [resolved]
    and [decls] are object literals: [resolved[name]] and [decls[name]] are
    answered by [Object.prototype] when the name is no own property.  What
    [Object.prototype] answers is truthy and no type node: handed to
    [getTypeDefinition], it passes every test of a node kind and reaches the
    final [throw]. *)
Definition resolve_with (derive : TypeNode -> M value) (name : string)
  : M value :=
  fun σ =>
    if truthy (map_lookup (resolved σ) name) then
      Returned (map_lookup (resolved σ) name) σ
    else
      match decls !! name with
      | Some body =>
          (v <- derive body ;;
           fun σ' =>
             let σ'' := mkState (<[name := v]> (resolved σ')) (heap σ') in
             Returned (map_lookup (resolved σ'') name) σ'') σ
      | None =>
          if truthy (inherited name) then Thrown UnsupportedNode
          else Thrown (NotFound name)
      end.

(** The reducer of [signatures.reduce(...)]: [{...acc, [name]: derive(type)}]. *)
Fixpoint derive_members (derive : option TypeNode -> M value)
    (sigs : list (string * bool * option TypeNode)) (acc : object)
  : M object :=
  match sigs with
  | [] => ret acc
  | (name, _, ty) :: rest =>
      v <- derive ty ;;
      derive_members derive rest (obj_set name v acc)
  end.

(** The body of [function getTypeDefinition(t)], over its recursive calls
    and the projections. *)
Definition getTypeDefinition_body
    (derive : TypeNode -> M value)
    (pick drop : value -> value -> M value)
    (t : TypeNode) : M value :=
  (* a missing node: reading [t.parent] of [undefined] *)
  let derive_opt (o : option TypeNode) : M value :=
    match o with
    | Some t' => derive t'
    | None => throw TypeError
    end in
  (* getTypeDefinition(t.typeArguments[i]) *)
  let derive_arg (args : option (list TypeNode)) (i : nat) : M value :=
    match args with
    | Some l => derive_opt (l !! i)
    | None => throw TypeError
    end in
  match t with
  | KeywordTypeNode tags StringKeyword =>
      object_literal [("type", VStr "string")] tags
  | KeywordTypeNode tags NumberKeyword =>
      object_literal [("type", VStr "number")] tags
  | KeywordTypeNode tags BooleanKeyword =>
      object_literal [("type", VStr "boolean")] tags
  | KeywordTypeNode tags NullKeyword
  | KeywordTypeNode tags UndefinedKeyword =>
      object_literal [("type", VStr "null")] tags
  | KeywordTypeNode _ OtherKeyword => throw UnsupportedNode
  | TypeLiteralNode tags members =>
      let signatures := property_signatures members in
      (* every step of the reduction builds a new accumulator; only the
         last one is ever referred to, and it is the one allocated here *)
      props <- derive_members derive_opt signatures [] ;;
      properties <- alloc props ;;
      let required := VArr (required_names signatures) in
      object_literal
        [("type", VStr "object"); ("properties", properties);
         ("required", required)] tags
  | ArrayTypeNode tags elementType =>
      items <- derive elementType ;;
      object_literal [("type", VStr "array"); ("items", items)] tags
  | TypeReferenceNode tags typeName typeArguments =>
      match operator_of typeName with
      | Some OpArray =>
          items <- derive_arg typeArguments 0 ;;
          object_literal [("type", VStr "array"); ("items", items)] tags
      | Some OpPartial =>
          partialDef <- derive_arg typeArguments 0 ;;
          delete_prop partialDef "required" ;;;
          spread_literal partialDef tags
      | Some OpRequired =>
          requiredDef <- derive_arg typeArguments 0 ;;
          properties <- get_prop requiredDef "properties" ;;
          keys <- Object_keys properties ;;
          set_prop requiredDef "required" keys ;;;
          spread_literal requiredDef tags
      | Some OpReadonly =>
          def <- derive_arg typeArguments 0 ;;
          spread_literal def tags
      | Some OpPick =>
          pickDef <- derive_arg typeArguments 0 ;;
          pickKeys <- derive_arg typeArguments 1 ;;
          keys <- get_prop pickKeys "enum" ;;
          picked <- pick pickDef keys ;;
          spread_literal picked tags
      | Some OpRecord =>
          keysDef <- derive_arg typeArguments 0 ;;
          recordKeys <- get_prop keysDef "enum" ;;
          recordType <- derive_arg typeArguments 1 ;;
          properties <- alloc [] ;;
          ks <- as_array recordKeys ;;
          forEach (fun k =>
                     o <- own_props recordType ;;
                     copy <- alloc o ;;
                     set_index properties k copy) ks ;;;
          object_literal
            [("type", VStr "object"); ("properties", properties);
             ("required", recordKeys)] tags
      | Some OpExclude =>
          def <- derive_arg typeArguments 0 ;;
          spread_literal def tags
      | Some OpExtract =>
          def <- derive_arg typeArguments 1 ;;
          spread_literal def tags
      | Some OpOmit =>
          omitDef <- derive_arg typeArguments 0 ;;
          omitKeys <- derive_arg typeArguments 1 ;;
          keys <- get_prop omitKeys "enum" ;;
          dropped <- drop omitDef keys ;;
          spread_literal dropped tags
      | Some OpDate =>
          object_literal [("type", VStr "string"); ("format", VStr "time")]
            tags
      | Some OpRegExp =>
          object_literal [("type", VStr "string"); ("format", VStr "regex")]
            tags
      | None =>
          match typeArguments with
          | None =>
              def <- resolve_with derive typeName ;;
              spread_literal def tags
          | Some _ =>
              (* the empty [else {}]: control leaves the [switch] and, a
                 reference being none of the later kinds, reaches the
                 final [throw] *)
              throw UnsupportedNode
          end
      end
  | LiteralTypeNode tags (StringLiteral text) =>
      object_literal [("enum", VArr [VStr text])] tags
  | LiteralTypeNode tags (NumericLiteral text) =>
      object_literal [("enum", VArr [VNum (unary_plus text)])] tags
  | LiteralTypeNode _ OtherLiteral => throw UnsupportedNode
  | UnionTypeNode tags types =>
      let oneOf :=
        alternatives <- array_map derive types ;;
        object_literal [("oneOf", VArr alternatives)] tags in
      let literals := literals_of types in
      if Nat.eqb (length literals) (length types) then
        let strings := string_literals literals in
        if Nat.eqb (length literals) (length strings) then
          object_literal [("enum", VArr (map VStr strings))] tags
        else
          let numbers := numeric_literals literals in
          if Nat.eqb (length literals) (length numbers) then
            object_literal
              [("enum", VArr (map (fun n => VNum (unary_plus n)) numbers))]
              tags
          else oneOf
      else oneOf
  | IntersectionTypeNode tags types =>
      members <- array_map derive types ;;
      object_literal [("allOf", VArr members)] tags
  | TypeOperatorNode tags KeyOfKeyword type =>
      arg <- derive type ;;
      properties <- get_prop arg "properties" ;;
      keys <- Object_keys properties ;;
      object_literal [("enum", keys)] tags
  | TypeOperatorNode _ _ _ => throw UnsupportedNode
  | ConditionalTypeNode tags _ _ trueType falseType =>
      let resolvedType := getTypeFromTypeNode t in
      let trueT := getTypeFromTypeNode trueType in
      let falseT := getTypeFromTypeNode falseType in
      if isSameType trueT falseT then throw BadConditional
      else if isSameType resolvedType trueT then
        def <- derive trueType ;;
        spread_literal def tags
      else
        def <- derive falseType ;;
        spread_literal def tags
  | OtherTypeNode _ => throw UnsupportedNode
  end.

(** [function getTypeDefinition(t)] *)
Fixpoint getTypeDefinition (fuel : nat) (t : TypeNode) : M value :=
  match fuel with
  | O => out_of_fuel
  | S n =>
      getTypeDefinition_body (getTypeDefinition n)
        (pickProperties n) (dropProperties n) t
  end.

(** [function resolve(name)] *)
Definition resolve (fuel : nat) (name : string) : M value :=
  resolve_with (getTypeDefinition fuel) name.

End Engine.

(** ** The scan and the driver *)




(** The loop of the driver,
    [keys.forEach(k => { ...JSON.stringify(resolve(k))... })], over the keys
    [Object.keys(decls)] in the order the runtime lists them; it returns the
    values handed to [JSON.stringify], in order. *)
Definition driver {E : Environment} (fuel : nat) (keys : list string)
  : M (list value) :=
  array_map (resolve fuel) keys.

(** ** A concrete environment

    One declaration table and one type checker, for running the program on
    explicit inputs.  [type A = { a: string, b?: number }]; the checker
    prints every node by kind, so that distinct kinds are distinct types. *)

Definition keyword (k : KeywordKind) : TypeNode := KeywordTypeNode [] k.
Definition reference (name : string) : TypeNode :=
  TypeReferenceNode [] name None.
Definition generic (name : string) (args : list TypeNode) : TypeNode :=
  TypeReferenceNode [] name (Some args).
Definition string_literal_type (text : string) : TypeNode :=
  LiteralTypeNode [] (StringLiteral text).

Definition demo_A : TypeNode :=
  TypeLiteralNode []
    [PropertySignature "a" false (Some (keyword StringKeyword));
     PropertySignature "b" true (Some (keyword NumberKeyword))].

(** The toy checker: [C extends X ? T : F] denotes [T] when [C] and [X]
    print alike, and [F] otherwise. *)
Fixpoint demo_printed (t : TypeNode) : string :=
  match t with
  | KeywordTypeNode _ StringKeyword => "string"
  | KeywordTypeNode _ NumberKeyword => "number"
  | KeywordTypeNode _ _ => "keyword"
  | TypeReferenceNode _ name _ => name
  | ConditionalTypeNode _ checkType extendsType trueType falseType =>
      if String.eqb (demo_printed checkType) (demo_printed extendsType)
      then demo_printed trueType
      else demo_printed falseType
  | _ => "other"
  end.

Definition demo_env : Environment := {|
  number_to_string := fun _ => "0";
  unary_plus := fun _ => 0%float;
  tsType := string;
  flags := fun _ => 0%Z;
  getTypeFromTypeNode := demo_printed;
  typeToString := fun s => s;
  decls := {[ "A" := demo_A ]};
|}.

(** The same environment for a source file whose one declaration is
    [type constructor = string]. *)
Definition constructor_env : Environment := {|
  number_to_string := fun _ => "0";
  unary_plus := fun _ => 0%float;
  tsType := string;
  flags := fun _ => 0%Z;
  getTypeFromTypeNode := demo_printed;
  typeToString := fun s => s;
  decls := {[ "constructor" := keyword StringKeyword ]};
|}.

Definition empty_state : state := mkState ∅ [].


(** The store after [resolve("A")] from the empty one. *)
Definition demo_heap_A : list object :=
  [[("type", VStr "string")];
   [("type", VStr "number")];
   [("a", VRef 0); ("b", VRef 1)];
   [("type", VStr "object"); ("properties", VRef 2);
    ("required", VArr [VStr "a"])]].

Definition demo_state_A : state := mkState {[ "A" := VRef 3 ]} demo_heap_A.

(** A store with the schema [{oneOf: [<object schema>, {type: "string"}]}]
    at address 3. *)
Definition demo_heap_oneOf : list object :=
  [[("type", VStr "string")];
   [("a", VRef 0); ("b", VRef 0)];
   [("type", VStr "object"); ("properties", VRef 1);
    ("required", VArr [VStr "a"; VStr "b"])];
   [("oneOf", VArr [VRef 2; VRef 0])]].

(** ** Vocabulary of the statements *)

(** The value a computation returns is the object it allocated last. *)
Definition fresh_result (v : value) (σ : state) : Prop :=
  exists h o, heap σ = h ++ [o] /\ v = VRef (length h).

(** [m2] agrees with [m1] wherever [m1] does not run out of fuel. *)
Definition settled {A} (m1 m2 : M A) : Prop :=
  forall σ, m1 σ <> OutOfFuel -> m2 σ = m1 σ.

Definition is_literal_type (t : TypeNode) : bool :=
  match t with
  | LiteralTypeNode _ _ => true
  | _ => false
  end.

Definition is_string_literal_type (t : TypeNode) : bool :=
  match t with
  | LiteralTypeNode _ (StringLiteral _) => true
  | _ => false
  end.

Definition is_numeric_literal_type (t : TypeNode) : bool :=
  match t with
  | LiteralTypeNode _ (NumericLiteral _) => true
  | _ => false
  end.

(** The field under which a schema that is no object schema keeps the
    children a projection walks: the first of [allOf], [oneOf], [anyOf]
    that is set. *)
Definition combinator_field (o : object) : option string :=
  if truthy (obj_read "allOf" o) then Some "allOf"
  else if truthy (obj_read "oneOf" o) then Some "oneOf"
  else if truthy (obj_read "anyOf" o) then Some "anyOf"
  else None.

(** [K] is a key type spelling out the keys [ks]: one string literal, or a
    union of string literals, with no tag that would replace [enum]. *)
Definition key_literals (K : TypeNode) (ks : list string) : Prop :=
  match K with
  | LiteralTypeNode ktags (StringLiteral k) =>
      ks = [k] /\ "enum" ∉ map fst ktags
  | UnionTypeNode ktags alternatives =>
      Forall2 (fun t s => exists tg, t = LiteralTypeNode tg (StringLiteral s))
        alternatives ks
      /\ "enum" ∉ map fst ktags
  | _ => False
  end.

(** [delete pm[k]] for every [k] of [ks], in order. *)
Definition delete_all (ks : list string) (pm : object) : object :=
  fold_left (fun acc k => obj_delete k acc) ks pm.





(** The tags a node is derived with. *)
Definition tags_of (t : TypeNode) : JSDocTags :=
  match t with
  | KeywordTypeNode tags _ | TypeLiteralNode tags _ | ArrayTypeNode tags _
  | TypeReferenceNode tags _ _ | LiteralTypeNode tags _
  | UnionTypeNode tags _ | IntersectionTypeNode tags _
  | TypeOperatorNode tags _ _ | ConditionalTypeNode tags _ _ _ _
  | OtherTypeNode tags => tags
  end.

(** No application of [Omit] is among the nodes that a derivation of [t]
    goes through: the members of a type literal, the element of an array,
    the arguments of a reference, the alternatives of a union or an
    intersection, the operand of [keyof], the branches of a conditional. *)
Fixpoint omit_free (t : TypeNode) : bool :=
  match t with
  | KeywordTypeNode _ _ | LiteralTypeNode _ _ | OtherTypeNode _ => true
  | TypeLiteralNode _ members =>
      forallb (fun m => match m with
                        | PropertySignature _ _ (Some ty) => omit_free ty
                        | _ => true
                        end) members
  | ArrayTypeNode _ elementType => omit_free elementType
  | TypeReferenceNode _ typeName typeArguments =>
      negb (String.eqb typeName "Omit")
      && match typeArguments with
         | Some l => forallb omit_free l
         | None => true
         end
  | UnionTypeNode _ types | IntersectionTypeNode _ types =>
      forallb omit_free types
  | TypeOperatorNode _ _ type => omit_free type
  | ConditionalTypeNode _ _ _ trueType falseType =>
      omit_free trueType && omit_free falseType
  end.

(** A returning run of [m] returns the address of an object that was not
    in the store when it started. *)
Definition returns_new {A} (m : M A) (f : A -> value) : Prop :=
  forall σ a σ', m σ = Returned a σ' ->
  exists l, f a = VRef l /\ length (heap σ) <= l.

(** The members [ts] are derived one after the other, from the store [σ]:
    the derivation of each starts in the store the one before it left and
    returns the address at the same position of [ls]; the last one leaves
    [σ']. *)
Fixpoint derived_in_turn {E : Environment} (fuel : nat) (ts : list TypeNode)
    (σ : state) (ls : list loc) (σ' : state) : Prop :=
  match ts, ls with
  | [], [] => σ' = σ
  | t :: ts', l :: ls' =>
      exists σ1,
        getTypeDefinition fuel t σ = Returned (VRef l) σ1
        /\ derived_in_turn fuel ts' σ1 ls' σ'
  | _, _ => False
  end.

(** Every returning run of [m] relates the store before to the store
    after. *)
Definition steps (R : state -> state -> Prop) {A} (m : M A) : Prop :=
  forall σ a σ', m σ = Returned a σ' -> R σ σ'.

(** A returning run of [m] leaves the store as it was. *)
Definition stateless {A} (m : M A) : Prop :=
  forall σ a σ', m σ = Returned a σ' -> σ' = σ.

(** The store has not shrunk and the cache is as it was at every name
    under which it answered with a truthy value: an entry that held an
    object still holds it, and a name that only [Object.prototype] answered
    has no entry still. *)
Definition extends (σ σ' : state) : Prop :=
  length (heap σ) <= length (heap σ')
  /\ forall name,
       truthy (map_lookup (resolved σ) name) = true ->
       resolved σ' !! name = resolved σ !! name.

(** The objects at the addresses below [n0] are as they were. *)
Definition unchanged_below (n0 : nat) (σ σ' : state) : Prop :=
  n0 <= length (heap σ) ->
  n0 <= length (heap σ')
  /\ forall l, l < n0 -> heap σ' !! l = heap σ !! l.

(** The objects at the addresses below [n0] and the cache are as they
    were. *)
Definition frame (n0 : nat) (σ σ' : state) : Prop :=
  n0 <= length (heap σ) ->
  n0 <= length (heap σ')
  /\ (forall l, l < n0 -> heap σ' !! l = heap σ !! l)
  /\ resolved σ' = resolved σ.

(** A returning run of [m] ends with the allocation of an object literal
    that closes with [...jsdocTag], and returns that new object. *)
Definition yields_literal (tags : JSDocTags) (m : M value) : Prop :=
  forall σ a σ', m σ = Returned a σ' ->
  exists h fields,
    heap σ' = h ++ [obj_assign fields (jsdocTag tags)]
    /\ a = VRef (length h)
    /\ length (heap σ) <= length h.

(** * Properties *)

Section Properties.

Context {E : Environment}.

(** ** Running the monad *)

Lemma bind_returned {A B} (m : M A) (k : A -> M B) σ a σ1 :
  m σ = Returned a σ1 -> bind m k σ = k a σ1.
Proof. intros H. unfold bind. now rewrite H. Qed.

Lemma bind_thrown {A B} (m : M A) (k : A -> M B) σ e :
  m σ = Thrown e -> bind m k σ = Thrown e.
Proof. intros H. unfold bind. now rewrite H. Qed.

Lemma bind_inv {A B} (m : M A) (k : A -> M B) σ b σ2 :
  bind m k σ = Returned b σ2 ->
  exists a σ1, m σ = Returned a σ1 /\ k a σ1 = Returned b σ2.
Proof.
  unfold bind. destruct (m σ) as [a σ1| | |]; try discriminate.
  intros H. now exists a, σ1.
Qed.

Lemma fresh_result_lookup v σ :
  fresh_result v σ -> exists l o, v = VRef l /\ heap σ !! l = Some o.
Proof.
  intros (h & o & Hh & ->). exists (length h), o. split; [done|].
  rewrite Hh. now rewrite list_lookup_middle.
Qed.

Lemma alloc_fresh o σ v σ' :
  alloc o σ = Returned v σ' -> fresh_result v σ'.
Proof.
  unfold alloc. intros [= <- <-]. now exists (heap σ), o.
Qed.

Lemma object_literal_fresh fields tags σ v σ' :
  object_literal fields tags σ = Returned v σ' -> fresh_result v σ'.
Proof. apply alloc_fresh. Qed.

Lemma spread_literal_fresh def tags σ v σ' :
  spread_literal def tags σ = Returned v σ' -> fresh_result v σ'.
Proof.
  unfold spread_literal. intros H.
  apply bind_inv in H as (o & σ1 & _ & H).
  now apply object_literal_fresh in H.
Qed.

Lemma spread_literal_ref l o tags σ :
  heap σ !! l = Some o ->
  spread_literal (VRef l) tags σ
  = Returned (VRef (length (heap σ)))
      (mkState (resolved σ) (heap σ ++ [obj_assign o (jsdocTag tags)])).
Proof.
  intros H. unfold spread_literal, own_props, load, bind. now rewrite H.
Qed.

Ltac run_inv :=
  repeat match goal with
    | H : bind _ _ _ = Returned _ _ |- _ =>
        let a := fresh "a" in
        let σ1 := fresh "σ" in
        let H1 := fresh "H" in
        apply bind_inv in H as (a & σ1 & H1 & H)
    | H : throw _ _ = Returned _ _ |- _ => discriminate H
    | H : Thrown _ = Returned _ _ |- _ => discriminate H
    | H : object_literal _ _ _ = Returned _ _ |- _ =>
        exact (object_literal_fresh _ _ _ _ _ H)
    | H : spread_literal _ _ _ = Returned _ _ |- _ =>
        exact (spread_literal_fresh _ _ _ _ _ H)
    end.

Lemma getTypeDefinition_fresh fuel t σ v σ' :
  getTypeDefinition fuel t σ = Returned v σ' -> fresh_result v σ'.
Proof.
  destruct fuel as [|n]; [discriminate|].
  cbn [getTypeDefinition]. unfold getTypeDefinition_body.
  destruct t as [tags k|tags ms|tags el|tags name args|tags lit|tags ts
                |tags ts|tags op ty|tags c e tt ff|tags].
  - destruct k; intros H; run_inv.
  - intros H; run_inv.
  - intros H; run_inv.
  - destruct (operator_of name) as [[]|]; [..|destruct args];
      intros H; run_inv.
  - destruct lit; intros H; run_inv.
  - repeat case_match; intros Hrun; run_inv.
  - intros H; run_inv.
  - destruct op; intros H; run_inv.
  - repeat case_match; intros Hrun; run_inv.
  - intros H; run_inv.
Qed.

(** ** Fuel

    Fuel only bounds the recursion: a run that does not run out of fuel has
    the same outcome with any larger amount. *)

Lemma settled_refl {A} (m : M A) : settled m m.
Proof. now intros σ _. Qed.

Lemma settled_bind {A B} (m1 m2 : M A) (k1 k2 : A -> M B) :
  settled m1 m2 -> (forall a, settled (k1 a) (k2 a)) ->
  settled (bind m1 k1) (bind m2 k2).
Proof.
  intros Hm Hk σ. unfold bind. specialize (Hm σ).
  destruct (m1 σ) as [a σ1| | |]; intros H.
  - rewrite Hm by done. now apply Hk.
  - now rewrite Hm.
  - now rewrite Hm.
  - done.
Qed.

Lemma settled_array_map {A B} (f g : A -> M B) l :
  (forall a, settled (f a) (g a)) -> settled (array_map f l) (array_map g l).
Proof.
  intros H. induction l as [|a l IH]; cbn; [apply settled_refl|].
  apply settled_bind; [apply H|]. intros b.
  apply settled_bind; [apply IH|]. intros bs. apply settled_refl.
Qed.

Lemma settled_forEach {A} (f g : A -> M unit) l :
  (forall a, settled (f a) (g a)) -> settled (forEach f l) (forEach g l).
Proof.
  intros H. induction l as [|a l IH]; cbn; [apply settled_refl|].
  apply settled_bind; [apply H|]. intros _. apply IH.
Qed.

Lemma settled_derive_members (d1 d2 : option TypeNode -> M value) sigs acc :
  (forall o, settled (d1 o) (d2 o)) ->
  settled (derive_members d1 sigs acc) (derive_members d2 sigs acc).
Proof.
  intros H. revert acc.
  induction sigs as [|[[name q] ty] sigs IH]; intros acc; cbn;
    [apply settled_refl|].
  apply settled_bind; [apply H|]. intros v. apply IH.
Qed.

Lemma settled_resolve_with (d1 d2 : TypeNode -> M value) name :
  (forall t, settled (d1 t) (d2 t)) ->
  settled (resolve_with d1 name) (resolve_with d2 name).
Proof.
  intros H σ. unfold resolve_with.
  destruct (truthy _); [done|].
  destruct (decls !! name) as [body|]; [|done].
  apply settled_bind; [apply H|]. intros v. apply settled_refl.
Qed.

Ltac settle :=
  repeat first
    [ apply settled_refl
    | match goal with
      | H : forall t, settled (?d1 t) (?d2 t) |- settled (?d1 _) (?d2 _) =>
          apply H
      | H : forall a b, settled (?p1 a b) (?p2 a b)
        |- settled (?p1 _ _) (?p2 _ _) => apply H
      | H : forall a b, settled (?p1 a b) _ |- settled (?p1 _ _) _ => apply H
      end
    | apply settled_bind; [|intros ?; cbv beta]
    | apply settled_array_map; intros ?; cbv beta
    | apply settled_forEach; intros ?; cbv beta
    | apply settled_derive_members; intros ?; cbv beta
    | apply settled_resolve_with; intros ?; cbv beta
    | match goal with
      | |- settled (if ?b then _ else _) _ => destruct b
      | |- settled (match ?x with _ => _ end) _ => destruct x
      end ].

Lemma pickProperties_settled n : forall def keys,
  settled (pickProperties n def keys) (pickProperties (S n) def keys).
Proof.
  induction n as [|n IH]; intros def keys; [now intros σ H|].
  cbn [pickProperties]. settle.
Qed.

Lemma dropProperties_settled n : forall def keys,
  settled (dropProperties n def keys) (dropProperties (S n) def keys).
Proof.
  induction n as [|n IH]; intros def keys; [now intros σ H|].
  cbn [dropProperties]. settle.
Qed.

Lemma getTypeDefinition_body_settled
    (d1 d2 : TypeNode -> M value) (p1 p2 q1 q2 : value -> value -> M value) t :
  (forall t, settled (d1 t) (d2 t)) ->
  (forall a b, settled (p1 a b) (p2 a b)) ->
  (forall a b, settled (q1 a b) (q2 a b)) ->
  settled (getTypeDefinition_body d1 p1 q1 t)
    (getTypeDefinition_body d2 p2 q2 t).
Proof.
  intros Hd Hp Hq. unfold getTypeDefinition_body.
  destruct t as [tags k|tags ms|tags el|tags name args|tags lit|tags ts
                |tags ts|tags op ty|tags c e tt ff|tags]; settle.
Qed.

Lemma getTypeDefinition_settled n : forall t,
  settled (getTypeDefinition n t) (getTypeDefinition (S n) t).
Proof.
  induction n as [|n IH]; intros t; [now intros σ H|].
  cbn [getTypeDefinition].
  apply getTypeDefinition_body_settled;
    auto using pickProperties_settled, dropProperties_settled.
Qed.

(** More fuel never changes an outcome that was reached. *)
Lemma getTypeDefinition_fuel_monotone n m t σ :
  n <= m -> getTypeDefinition n t σ <> OutOfFuel ->
  getTypeDefinition m t σ = getTypeDefinition n t σ.
Proof.
  induction 1 as [|m Hle IH]; [done|]. intros H.
  rewrite <- (IH H). apply getTypeDefinition_settled. now rewrite IH.
Qed.

Lemma resolve_fuel_monotone n m name σ :
  n <= m -> resolve n name σ <> OutOfFuel ->
  resolve m name σ = resolve n name σ.
Proof.
  intros Hle. unfold resolve. apply settled_resolve_with.
  intros t σ' H. now apply getTypeDefinition_fuel_monotone.
Qed.

(** ** Own properties *)

Lemma obj_get_set k k' v o :
  obj_get k (obj_set k' v o) = if String.eqb k k' then Some v else obj_get k o.
Proof.
  induction o as [|[k0 v0] o IH]; cbn.
  - now destruct (String.eqb_spec k k').
  - destruct (String.eqb_spec k' k0) as [->|Hne]; cbn.
    + now destruct (String.eqb_spec k k0).
    + rewrite IH. destruct (String.eqb_spec k k0) as [->|]; [|done].
      destruct (String.eqb_spec k0 k'); congruence.
Qed.

Lemma obj_get_delete k k' o :
  obj_get k (obj_delete k' o) = if String.eqb k k' then None else obj_get k o.
Proof.
  induction o as [|[k0 v0] o IH]; cbn.
  - now destruct (String.eqb k k').
  - destruct (String.eqb_spec k' k0) as [->|Hne]; cbn.
    + rewrite IH. destruct (String.eqb_spec k k0); [done|done].
    + rewrite IH. destruct (String.eqb_spec k k0) as [->|]; [|done].
      destruct (String.eqb_spec k0 k'); congruence.
Qed.

Lemma obj_get_assign_None k dst src :
  obj_get k src = None -> obj_get k (obj_assign dst src) = obj_get k dst.
Proof.
  unfold obj_assign. revert dst.
  induction src as [|[k0 v0] src IH]; intros dst; cbn; [done|].
  destruct (String.eqb_spec k k0) as [->|Hne]; [discriminate|].
  intros H. rewrite IH by done. rewrite obj_get_set.
  now destruct (String.eqb_spec k k0).
Qed.

Lemma obj_get_assign_is_Some k dst src :
  is_Some (obj_get k (obj_assign dst src))
  <-> is_Some (obj_get k src) \/ is_Some (obj_get k dst).
Proof.
  unfold obj_assign. revert dst.
  induction src as [|[k0 v0] src IH]; intros dst; cbn.
  - split; [auto|]. intros [[? [=]]|]; done.
  - rewrite IH, obj_get_set.
    destruct (String.eqb_spec k k0) as [->|Hne]; [|tauto].
    split; eauto.
Qed.

Lemma obj_get_is_Some k o : is_Some (obj_get k o) <-> k ∈ obj_keys o.
Proof.
  induction o as [|[k0 v0] o IH]; cbn.
  - split; [intros [? [=]]|intros H; now apply elem_of_nil in H].
  - rewrite elem_of_cons, <- IH.
    destruct (String.eqb_spec k k0) as [->|Hne]; [|tauto].
    split; eauto.
Qed.

Lemma jsdocTag_assign tags :
  jsdocTag tags
  = obj_assign []
      (map (fun tc => (fst tc, value_of_comment (snd tc))) tags).
Proof.
  unfold jsdocTag, obj_assign. generalize (@nil (string * value)).
  induction tags as [|tc tags IH]; intros acc; cbn; [done|].
  now rewrite IH.
Qed.

(** A key of [jsdocTag] is the name of a tag. *)
Lemma obj_get_jsdocTag k tags :
  is_Some (obj_get k (jsdocTag tags)) <-> k ∈ map fst tags.
Proof.
  rewrite jsdocTag_assign, obj_get_assign_is_Some, obj_get_is_Some.
  unfold obj_keys. rewrite map_map. cbn.
  split; [intros [H|[? [=]]]; exact H|auto].
Qed.

Lemma obj_assign_nil o : obj_assign o (jsdocTag []) = o.
Proof. reflexivity. Qed.

(** ** Generic references outside the operator table (C6) *)

(** C6, as the code has it: a reference that carries type arguments and
    whose name is none of the recognised operators does not return at all.
    Control leaves the [switch] through the empty [else] branch, no later
    test applies to a reference, and the final [throw new Error("unsupported
    node")] is reached: the derivation fails, in every store. *)
Theorem unrecognised_generic_reference_throws
    fuel tags typeName args σ :
  operator_of typeName = None ->
  getTypeDefinition (S fuel) (TypeReferenceNode tags typeName (Some args)) σ
  = Thrown UnsupportedNode.
Proof.
  intros H. cbn [getTypeDefinition]. unfold getTypeDefinition_body.
  now rewrite H.
Qed.

(** ** Exclude and Extract (C10) *)

(** C10: [Exclude<T, U>] derives [T] alone and returns a new object with
    exactly the own properties of that result (the node's tags merged on
    top); [Extract<T, U>] does the same with [U].  The other operand is
    never derived, and the store is the one the single derivation left,
    plus the new object. *)
Theorem exclude_extract_degenerate fuel tags T U σ v σ' :
  (getTypeDefinition fuel T σ = Returned v σ' ->
   exists l o, v = VRef l /\ heap σ' !! l = Some o /\
     getTypeDefinition (S fuel)
       (TypeReferenceNode tags "Exclude" (Some [T; U])) σ
     = Returned (VRef (length (heap σ')))
         (mkState (resolved σ')
            (heap σ' ++ [obj_assign o (jsdocTag tags)])))
  /\
  (getTypeDefinition fuel U σ = Returned v σ' ->
   exists l o, v = VRef l /\ heap σ' !! l = Some o /\
     getTypeDefinition (S fuel)
       (TypeReferenceNode tags "Extract" (Some [T; U])) σ
     = Returned (VRef (length (heap σ')))
         (mkState (resolved σ')
            (heap σ' ++ [obj_assign o (jsdocTag tags)]))).
Proof.
  split; intros H;
    destruct (fresh_result_lookup _ _ (getTypeDefinition_fresh _ _ _ _ _ H))
      as (l & o & -> & Hl);
    exists l, o; (split; [done|]); (split; [done|]);
    cbn [getTypeDefinition]; unfold getTypeDefinition_body; cbn;
    rewrite (bind_returned _ _ _ _ _ H);
    now apply spread_literal_ref.
Qed.

(** ** Conditional types (C2) *)

Lemma isSameType_spec (a b : tsType) :
  isSameType a b = true
  <-> flags a = flags b /\ typeToString a = typeToString b.
Proof.
  unfold isSameType.
  destruct (Z.eqb_spec (flags a) (flags b)) as [Hf|Hf]; cbn.
  - rewrite String.eqb_eq. tauto.
  - split; [discriminate|tauto].
Qed.

(** C2: a conditional type whose branches denote the same semantic type is
    refused; otherwise the branch is chosen by comparing the semantic type of
    the whole node with that of the true branch, and the result is a new
    object with the own properties of the chosen branch's derivation (the
    node's tags merged on top).  Two semantic types are the same exactly when
    their flags and their printed forms agree. *)
Theorem conditional_branch_selection
    fuel tags checkType extendsType trueType falseType σ :
  let t := ConditionalTypeNode tags checkType extendsType trueType falseType in
  let whole := getTypeFromTypeNode t in
  let trueT := getTypeFromTypeNode trueType in
  let falseT := getTypeFromTypeNode falseType in
  (forall a b : tsType,
     isSameType a b = true
     <-> flags a = flags b /\ typeToString a = typeToString b)
  /\ (isSameType trueT falseT = true ->
      getTypeDefinition (S fuel) t σ = Thrown BadConditional)
  /\ (isSameType trueT falseT = false ->
      isSameType whole trueT = true ->
      getTypeDefinition (S fuel) t σ
      = (def <- getTypeDefinition fuel trueType ;; spread_literal def tags) σ)
  /\ (isSameType trueT falseT = false ->
      isSameType whole trueT = false ->
      getTypeDefinition (S fuel) t σ
      = (def <- getTypeDefinition fuel falseType ;; spread_literal def tags) σ).
Proof.
  intros t whole trueT falseT.
  split; [exact isSameType_spec|].
  subst t whole trueT falseT.
  cbn [getTypeDefinition]. unfold getTypeDefinition_body.
  repeat split; intros H; try intros H'; rewrite H; try rewrite H'; done.
Qed.

(** ** Partial (C9) *)

Lemma partial_run fuel tags T rest σ l o σ' :
  getTypeDefinition fuel T σ = Returned (VRef l) σ' ->
  heap σ' !! l = Some o ->
  getTypeDefinition (S fuel)
    (TypeReferenceNode tags "Partial" (Some (T :: rest))) σ
  = Returned (VRef (length (heap σ')))
      (mkState (resolved σ')
         (<[l := obj_delete "required" o]> (heap σ') ++
            [obj_assign (obj_delete "required" o) (jsdocTag tags)])).
Proof.
  intros H Hl.
  cbn [getTypeDefinition]. unfold getTypeDefinition_body. cbn.
  rewrite (bind_returned _ _ _ _ _ H).
  unfold delete_prop, load, store, bind at 1 2. rewrite Hl.
  rewrite (spread_literal_ref l (obj_delete "required" o)); cbn.
  - now rewrite length_insert.
  - apply list_lookup_insert_eq. now apply lookup_lt_Some in Hl.
Qed.

(** C9, as the code has it: [Partial<T>] derives [T], deletes [required]
    from the object that derivation returned, and returns a new object with
    the remaining properties and the node's tags merged on top.  The result
    therefore has a [required] field exactly when one of the node's own tags
    is named [required]. *)
Theorem partial_drops_required fuel tags T rest σ v σ' :
  getTypeDefinition fuel T σ = Returned v σ' ->
  exists l o, v = VRef l /\ heap σ' !! l = Some o /\
    let dropped := obj_delete "required" o in
    let result := obj_assign dropped (jsdocTag tags) in
    getTypeDefinition (S fuel)
      (TypeReferenceNode tags "Partial" (Some (T :: rest))) σ
    = Returned (VRef (length (heap σ')))
        (mkState (resolved σ') (<[l := dropped]> (heap σ') ++ [result]))
    /\ obj_get "required" dropped = None
    /\ (forall k, k <> "required" -> obj_get k dropped = obj_get k o)
    /\ (is_Some (obj_get "required" result) <-> "required" ∈ map fst tags).
Proof.
  intros H.
  destruct (fresh_result_lookup _ _ (getTypeDefinition_fresh _ _ _ _ _ H))
    as (l & o & -> & Hl).
  exists l, o. split; [done|]. split; [done|]. cbn zeta.
  split; [|split; [|split]].
  - now apply partial_run.
  - now rewrite obj_get_delete, String.eqb_refl.
  - intros k Hk. rewrite obj_get_delete.
    now destruct (String.eqb_spec k "required").
  - rewrite obj_get_assign_is_Some, obj_get_jsdocTag, obj_get_delete,
      String.eqb_refl.
    split; [intros [?|[? [=]]]; done|auto].
Qed.

(** ** The order of [Object.keys] *)

Lemma insert_index_perm x l : insert_index x l ≡ₚ x :: l.
Proof.
  induction l as [|y l IH]; cbn; [done|].
  destruct (fst x <=? fst y)%N; [done|].
  rewrite IH. apply Permutation_swap.
Qed.

Lemma sort_indices_perm l : sort_indices l ≡ₚ l.
Proof.
  induction l as [|x l IH]; cbn; [done|].
  now rewrite insert_index_perm, IH.
Qed.

Lemma index_keys_filter ks :
  map snd (omap (fun k => match array_index k with
                          | Some n => Some (n, k)
                          | None => None
                          end) ks)
  = List.filter is_array_index ks.
Proof.
  induction ks as [|k ks IH]; cbn; [done|].
  unfold is_array_index at 1.
  destruct (array_index k) as [n|]; cbn; now rewrite IH.
Qed.

Lemma filter_partition_perm {A} (f : A -> bool) (l : list A) :
  List.filter f l ++ List.filter (fun x => negb (f x)) l ≡ₚ l.
Proof.
  induction l as [|x l IH]; cbn; [done|].
  destruct (f x); cbn.
  - now rewrite IH.
  - rewrite <- Permutation_middle. now rewrite IH.
Qed.

(** [Object.keys] lists every own property name once. *)
Lemma own_property_keys_perm o : own_property_keys o ≡ₚ obj_keys o.
Proof.
  unfold own_property_keys.
  rewrite (Permutation_map snd (sort_indices_perm _)), index_keys_filter.
  apply filter_partition_perm.
Qed.

(** Without array indices among the names, it lists them in the order in
    which they were defined. *)
Lemma own_property_keys_plain o :
  Forall (fun k => array_index k = None) (obj_keys o) ->
  own_property_keys o = obj_keys o.
Proof.
  unfold own_property_keys. induction (obj_keys o) as [|k ks IH]; [done|].
  intros H. apply Forall_cons in H as [Hk Hks]. cbn.
  unfold is_array_index at 1. rewrite Hk. cbn.
  specialize (IH Hks). cbn in IH.
  destruct (omap _ ks) as [|x l] eqn:Ho.
  - cbn in *. now rewrite IH.
  - exfalso. clear IH. revert Ho.
    induction ks as [|k' ks IH']; cbn; [done|].
    apply Forall_cons in Hks as [Hk' Hks]. rewrite Hk'. auto.
Qed.

(** ** keyof (C7) *)

(** C7: [keyof T] derives [T] and enumerates the own property names of the
    object held in its [properties] field: every name once, as
    [Object.keys] lists them (in the order of definition when none is an
    array index); when the derived schema has no [properties] field (it is
    no object schema), [Object.keys] is handed [undefined] and the
    derivation fails with the runtime's TypeError, the failure the
    specification calls KeyOfNonObject. *)
Theorem keyof_enumerates_properties fuel tags target σ v σ' :
  getTypeDefinition fuel target σ = Returned v σ' ->
  exists a o, v = VRef a /\ heap σ' !! a = Some o /\
    (forall p pm,
       obj_read "properties" o = VRef p -> heap σ' !! p = Some pm ->
       getTypeDefinition (S fuel) (TypeOperatorNode tags KeyOfKeyword target) σ
       = Returned (VRef (length (heap σ')))
           (mkState (resolved σ')
              (heap σ' ++
                 [obj_assign
                    [("enum", VArr (map VStr (own_property_keys pm)))]
                    (jsdocTag tags)]))
       /\ own_property_keys pm ≡ₚ obj_keys pm
       /\ (Forall (fun k => array_index k = None) (obj_keys pm) ->
           own_property_keys pm = obj_keys pm))
    /\ (obj_read "properties" o = VUndef ->
        getTypeDefinition (S fuel) (TypeOperatorNode tags KeyOfKeyword target) σ
        = Thrown TypeError).
Proof.
  intros H.
  destruct (fresh_result_lookup _ _ (getTypeDefinition_fresh _ _ _ _ _ H))
    as (a & o & -> & Ha).
  exists a, o. split; [done|]. split; [done|].
  split; [intros p pm Hp Hpm; split;
            [|split; [apply own_property_keys_perm
                     |apply own_property_keys_plain]]
         |intros Hp];
    cbn [getTypeDefinition]; unfold getTypeDefinition_body;
    rewrite (bind_returned _ _ _ _ _ H);
    unfold get_prop, load, bind at 1 2; rewrite Ha; cbn; rewrite Hp;
    unfold Object_keys, load, bind; cbn.
  - now rewrite Hpm.
  - done.
Qed.

(** ** Unions (C5) *)

Lemma literals_of_cons t ts :
  literals_of (t :: ts)
  = match t with
    | LiteralTypeNode _ lit => lit :: literals_of ts
    | _ => literals_of ts
    end.
Proof. now destruct t. Qed.

Lemma string_literals_cons l ls :
  string_literals (l :: ls)
  = match l with
    | StringLiteral s => s :: string_literals ls
    | _ => string_literals ls
    end.
Proof. now destruct l. Qed.

Lemma numeric_literals_cons l ls :
  numeric_literals (l :: ls)
  = match l with
    | NumericLiteral s => s :: numeric_literals ls
    | _ => numeric_literals ls
    end.
Proof. now destruct l. Qed.

Lemma literals_of_length types : length (literals_of types) <= length types.
Proof.
  induction types as [|t ts IH]; [done|].
  rewrite literals_of_cons. destruct t; cbn [length]; lia.
Qed.

Lemma string_literals_length lits :
  length (string_literals lits) <= length lits.
Proof.
  induction lits as [|l ls IH]; [done|].
  rewrite string_literals_cons. destruct l; cbn [length]; lia.
Qed.

Lemma numeric_literals_length lits :
  length (numeric_literals lits) <= length lits.
Proof.
  induction lits as [|l ls IH]; [done|].
  rewrite numeric_literals_cons. destruct l; cbn [length]; lia.
Qed.

Lemma eqb_false_lt n m : n < m -> Nat.eqb n m = false.
Proof. intros H. apply Nat.eqb_neq. lia. Qed.

Lemma eqb_false_gt n m : m < n -> Nat.eqb n m = false.
Proof. intros H. apply Nat.eqb_neq. lia. Qed.

Lemma all_string_literals types :
  Nat.eqb (length (literals_of types)) (length types)
  && Nat.eqb (length (literals_of types))
       (length (string_literals (literals_of types)))
  = forallb is_string_literal_type types.
Proof.
  induction types as [|t ts IH]; [done|].
  pose proof (literals_of_length ts) as Hl.
  pose proof (string_literals_length (literals_of ts)) as Hs.
  rewrite literals_of_cons. cbn [forallb].
  destruct t as [| | | |? lit| | | | |]; cbn [is_string_literal_type andb];
    try (cbn [length];
         rewrite (eqb_false_lt (length (literals_of ts)) (S (length ts)))
           by lia; done).
  rewrite string_literals_cons.
  destruct lit; cbn [length]; [exact IH|..];
    rewrite (eqb_false_gt (S (length (literals_of ts)))
               (length (string_literals (literals_of ts)))) by lia;
    apply andb_false_r.
Qed.

Lemma all_numeric_literals types :
  Nat.eqb (length (literals_of types)) (length types)
  && Nat.eqb (length (literals_of types))
       (length (numeric_literals (literals_of types)))
  = forallb is_numeric_literal_type types.
Proof.
  induction types as [|t ts IH]; [done|].
  pose proof (literals_of_length ts) as Hl.
  pose proof (numeric_literals_length (literals_of ts)) as Hs.
  rewrite literals_of_cons. cbn [forallb].
  destruct t as [| | | |? lit| | | | |]; cbn [is_numeric_literal_type andb];
    try (cbn [length];
         rewrite (eqb_false_lt (length (literals_of ts)) (S (length ts)))
           by lia; done).
  rewrite numeric_literals_cons.
  destruct lit; cbn [length]; [|exact IH|];
    rewrite (eqb_false_gt (S (length (literals_of ts)))
               (length (numeric_literals (literals_of ts)))) by lia;
    apply andb_false_r.
Qed.

Lemma literals_of_strings types strs :
  Forall2 (fun t s => exists tg, t = LiteralTypeNode tg (StringLiteral s))
    types strs ->
  literals_of types = map StringLiteral strs.
Proof.
  induction 1 as [|t s ts ss [tg ->] _ IH]; [done|].
  rewrite literals_of_cons. cbn. now rewrite IH.
Qed.

Lemma literals_of_numbers types nums :
  Forall2 (fun t n => exists tg, t = LiteralTypeNode tg (NumericLiteral n))
    types nums ->
  literals_of types = map NumericLiteral nums.
Proof.
  induction 1 as [|t s ts ss [tg ->] _ IH]; [done|].
  rewrite literals_of_cons. cbn. now rewrite IH.
Qed.

Lemma string_literals_strings strs :
  string_literals (map StringLiteral strs) = strs.
Proof.
  induction strs as [|s ss IH]; [done|].
  cbn [map]. rewrite string_literals_cons. now rewrite IH.
Qed.

Lemma string_literals_numbers nums :
  string_literals (map NumericLiteral nums) = [].
Proof.
  induction nums as [|s ss IH]; [done|].
  cbn [map]. now rewrite string_literals_cons.
Qed.

Lemma numeric_literals_numbers nums :
  numeric_literals (map NumericLiteral nums) = nums.
Proof.
  induction nums as [|s ss IH]; [done|].
  cbn [map]. rewrite numeric_literals_cons. now rewrite IH.
Qed.

Lemma all_strings_all_literals types :
  forallb is_string_literal_type types = true ->
  forallb is_literal_type types = true
  /\ existsb is_numeric_literal_type types = false.
Proof.
  induction types as [|t ts IH]; [done|]. cbn.
  destruct t as [| | | |? [| |]| | | | |]; cbn; try discriminate. exact IH.
Qed.

Lemma all_numbers_all_literals types :
  forallb is_numeric_literal_type types = true ->
  forallb is_literal_type types = true
  /\ existsb is_string_literal_type types = false.
Proof.
  induction types as [|t ts IH]; [done|]. cbn.
  destruct t as [| | | |? [| |]| | | | |]; cbn; try discriminate. exact IH.
Qed.

Lemma mixed_union_is_neither types :
  forallb is_literal_type types = false
  \/ (existsb is_string_literal_type types = true
      /\ existsb is_numeric_literal_type types = true) ->
  forallb is_string_literal_type types = false
  /\ forallb is_numeric_literal_type types = false.
Proof.
  intros H.
  split.
  - destruct (forallb is_string_literal_type types) eqn:Hall; [|done].
    destruct (all_strings_all_literals _ Hall) as [Hl Hn].
    destruct H as [H|[_ H]]; congruence.
  - destruct (forallb is_numeric_literal_type types) eqn:Hall; [|done].
    destruct (all_numbers_all_literals _ Hall) as [Hl Hs].
    destruct H as [H|[H _]]; congruence.
Qed.

(** C5: a union whose alternatives are all string-literal types derives to
    the enumeration of their texts, in order; one whose alternatives are all
    numeric-literal types derives to the enumeration of their values; and a
    union that is neither (in particular when an alternative is no literal
    type, or when string and numeric literals are mixed) derives every
    alternative in order and returns them under [oneOf].  The node's tags
    are merged on top of each result; the alternatives' own tags play no
    part in the two enumerations. *)
Theorem union_enum_or_oneOf fuel tags types σ :
  (forall strs,
     Forall2 (fun t s => exists tg, t = LiteralTypeNode tg (StringLiteral s))
       types strs ->
     getTypeDefinition (S fuel) (UnionTypeNode tags types) σ
     = Returned (VRef (length (heap σ)))
         (mkState (resolved σ)
            (heap σ ++
               [obj_assign [("enum", VArr (map VStr strs))] (jsdocTag tags)])))
  /\
  (forall nums,
     Forall2 (fun t n => exists tg, t = LiteralTypeNode tg (NumericLiteral n))
       types nums ->
     getTypeDefinition (S fuel) (UnionTypeNode tags types) σ
     = Returned (VRef (length (heap σ)))
         (mkState (resolved σ)
            (heap σ ++
               [obj_assign
                  [("enum", VArr (map (fun n => VNum (unary_plus n)) nums))]
                  (jsdocTag tags)])))
  /\
  (forallb is_string_literal_type types = false ->
   forallb is_numeric_literal_type types = false ->
   getTypeDefinition (S fuel) (UnionTypeNode tags types) σ
   = (alternatives <- array_map (getTypeDefinition fuel) types ;;
      object_literal [("oneOf", VArr alternatives)] tags) σ)
  /\
  (forallb is_literal_type types = false
   \/ (existsb is_string_literal_type types = true
       /\ existsb is_numeric_literal_type types = true) ->
   forallb is_string_literal_type types = false
   /\ forallb is_numeric_literal_type types = false).
Proof.
  cbn [getTypeDefinition]. unfold getTypeDefinition_body.
  split; [|split; [|split]]; [..|apply mixed_union_is_neither].
  - intros strs H. rewrite (literals_of_strings _ _ H).
    rewrite string_literals_strings, length_map.
    rewrite (Forall2_length _ _ _ H), Nat.eqb_refl. done.
  - intros nums H. rewrite (literals_of_numbers _ _ H).
    rewrite string_literals_numbers, numeric_literals_numbers, length_map.
    rewrite (Forall2_length _ _ _ H), Nat.eqb_refl.
    destruct nums as [|n ns]; done.
  - intros Hs Hn.
    pose proof (all_string_literals types) as Hs'.
    pose proof (all_numeric_literals types) as Hn'.
    rewrite Hs in Hs'. rewrite Hn in Hn'.
    destruct (Nat.eqb (length (literals_of types)) (length types));
      [|done].
    cbn in Hs', Hn'. now rewrite Hs', Hn'.
Qed.

(** ** Object types (C4) *)

Lemma array_map_length {A B} (f : A -> M B) l σ rs σ' :
  array_map f l σ = Returned rs σ' -> length rs = length l.
Proof.
  revert σ rs σ'. induction l as [|a l IH]; intros σ rs σ'; cbn.
  - now intros [= <- _].
  - intros H. apply bind_inv in H as (b & σ1 & _ & H).
    apply bind_inv in H as (bs & σ2 & Hbs & H).
    injection H as <- _. cbn. f_equal. eauto.
Qed.

(** The reducer builds the object that assigning the derived values to the
    member names, in order, builds. *)
Lemma derive_members_array_map
    (d : option TypeNode -> M value) sigs acc σ :
  derive_members d sigs acc σ
  = (vs <- array_map (fun s => d (snd s)) sigs ;;
     ret (obj_assign acc (zip (map (fun s => fst (fst s)) sigs) vs))) σ.
Proof.
  revert acc σ. induction sigs as [|[[name q] ty] sigs IH]; intros acc σ.
  - reflexivity.
  - cbn [derive_members array_map map fst snd]. unfold bind, ret.
    destruct (d ty σ) as [v σ1| | |]; try done.
    rewrite IH. unfold bind, ret. now destruct (array_map _ sigs σ1).
Qed.

Lemma obj_get_assign_NoDup k v dst src :
  NoDup (obj_keys src) -> obj_get k src = Some v ->
  obj_get k (obj_assign dst src) = Some v.
Proof.
  unfold obj_assign. revert dst.
  induction src as [|[k0 v0] src IH]; intros dst Hnd; cbn; [done|].
  apply NoDup_cons in Hnd as [Hk0 Hnd].
  destruct (String.eqb_spec k k0) as [->|Hne].
  - intros [= ->].
    assert (obj_get k0 src = None) as Hnone.
    { destruct (obj_get k0 src) eqn:Hg; [|done].
      exfalso. apply Hk0. apply obj_get_is_Some. eauto. }
    change (fold_left _ src ?d) with (obj_assign d src).
    rewrite obj_get_assign_None by done.
    now rewrite obj_get_set, String.eqb_refl.
  - intros H. now apply IH.
Qed.

Lemma obj_get_zip (names : list string) (vs : list value) i k v :
  NoDup names -> names !! i = Some k -> vs !! i = Some v ->
  obj_get k (zip names vs) = Some v.
Proof.
  revert vs i. induction names as [|k0 names IH]; intros vs i Hnd; [done|].
  apply NoDup_cons in Hnd as [Hk0 Hnd].
  destruct vs as [|v0 vs]; [now destruct i|].
  destruct i as [|i]; cbn.
  - intros [= ->] [= ->]. now rewrite String.eqb_refl.
  - intros Hk Hv. destruct (String.eqb_spec k k0) as [->|Hne].
    + exfalso. apply Hk0. eapply list_elem_of_lookup_2. exact Hk.
    + eauto.
Qed.

Lemma required_names_filter sigs :
  required_names sigs
  = map (fun s => VStr (fst (fst s)))
      (List.filter (fun s => negb (snd (fst s))) sigs).
Proof.
  induction sigs as [|[[name q] ty] sigs IH]; [done|].
  unfold required_names in *. destruct q; cbn; now rewrite IH.
Qed.

(** C4: an object type derives every property member's type in declaration
    order; the result has [type: "object"], a [properties] object whose keys
    are the member names, each holding the derivation of that member's type,
    and [required] listing the names of the members without question mark,
    in declaration order (the node's tags merged on top).  In particular
    [{ a: string, b?: number }] derives to
    [{type: "object", properties: {a: {type: "string"}, b: {type: "number"}},
      required: ["a"]}]. *)
Theorem type_literal_schema fuel tags members σ vs σ' :
  let sigs := property_signatures members in
  let names := map (fun s => fst (fst s)) sigs in
  array_map
    (fun s => match snd s with
              | Some t => getTypeDefinition fuel t
              | None => throw TypeError
              end) sigs σ = Returned vs σ' ->
  let props := obj_assign [] (zip names vs) in
  let p := length (heap σ') in
  getTypeDefinition (S fuel) (TypeLiteralNode tags members) σ
  = Returned (VRef (S p))
      (mkState (resolved σ')
         (heap σ' ++
            [props;
             obj_assign
               [("type", VStr "object"); ("properties", VRef p);
                ("required", VArr (required_names sigs))]
               (jsdocTag tags)]))
  /\ length vs = length names
  /\ (forall k, is_Some (obj_get k props) <-> k ∈ names)
  /\ (NoDup names ->
      forall i k v, names !! i = Some k -> vs !! i = Some v ->
                    obj_get k props = Some v)
  /\ required_names sigs
     = map (fun s => VStr (fst (fst s)))
         (List.filter (fun s => negb (snd (fst s))) sigs)
  /\ (getTypeDefinition 2 demo_A empty_state
      = Returned (VRef 3)
          (mkState ∅
             [[("type", VStr "string")]; [("type", VStr "number")];
              [("a", VRef 0); ("b", VRef 1)];
              [("type", VStr "object"); ("properties", VRef 2);
               ("required", VArr [VStr "a"])]])
      /\ snapshot 4
           [[("type", VStr "string")]; [("type", VStr "number")];
            [("a", VRef 0); ("b", VRef 1)];
            [("type", VStr "object"); ("properties", VRef 2);
             ("required", VArr [VStr "a"])]] (VRef 3)
         = Some (JObj
                   [("type", JStr "object");
                    ("properties",
                     JObj [("a", JObj [("type", JStr "string")]);
                           ("b", JObj [("type", JStr "number")])]);
                    ("required", JArr [JStr "a"])])).
Proof.
  intros sigs names H props p.
  assert (length vs = length names) as Hlen.
  { subst names. rewrite length_map. exact (array_map_length _ _ _ _ _ H). }
  assert (obj_keys (zip names vs) = names) as Hkeys.
  { unfold obj_keys. apply fst_zip. lia. }
  split; [|split; [|split; [split|split; [|split; [|split]]]]];
    [..|reflexivity|reflexivity].
  - cbn [getTypeDefinition]. unfold getTypeDefinition_body.
    fold sigs. unfold bind at 1.
    rewrite derive_members_array_map.
    rewrite (bind_returned _ _ _ _ _ H). cbn.
    unfold object_literal, alloc, bind; cbn.
    rewrite length_app; cbn. rewrite Nat.add_1_r.
    now rewrite <- app_assoc.
  - exact Hlen.
  - subst props. rewrite obj_get_assign_is_Some, obj_get_is_Some, Hkeys.
    intros [?|[? [=]]]; done.
  - subst props. rewrite obj_get_assign_is_Some, obj_get_is_Some, Hkeys. auto.
  - intros Hnd i k v Hk Hv. subst props.
    apply obj_get_assign_NoDup; [now rewrite Hkeys|].
    now apply (obj_get_zip names vs i).
  - apply required_names_filter.
Qed.

(** ** Projections of combinators (C3) *)

Lemma get_prop_ref l o k σ :
  heap σ !! l = Some o ->
  get_prop (VRef l) k σ = Returned (obj_read k o) σ.
Proof. intros H. unfold get_prop, load, bind. now rewrite H. Qed.

Lemma own_props_ref l o σ :
  heap σ !! l = Some o -> own_props (VRef l) σ = Returned o σ.
Proof. intros H. unfold own_props, load. now rewrite H. Qed.

Lemma pickProperties_combinator fuel l o field cs keys σ :
  heap σ !! l = Some o ->
  strict_eq_str (obj_read "type" o) "object" = false ->
  combinator_field o = Some field ->
  obj_read field o = VArr cs ->
  pickProperties (S fuel) (VRef l) keys σ
  = (rs <- array_map (fun x => pickProperties fuel x keys) cs ;;
     alloc (obj_set "allOf" (VArr rs) o)) σ.
Proof.
  intros Hl Hty Hf Hcs. unfold combinator_field in Hf.
  cbn [pickProperties].
  rewrite (bind_returned _ _ _ _ _ (get_prop_ref _ _ "type" _ Hl)), Hty.
  rewrite (bind_returned _ _ _ _ _ (get_prop_ref _ _ "allOf" _ Hl)).
  destruct (truthy (obj_read "allOf" o)).
  { injection Hf as <-.
    rewrite (bind_returned _ _ _ _ _ (own_props_ref _ _ _ Hl)).
    rewrite (bind_returned _ _ _ _ _ (get_prop_ref _ _ "allOf" _ Hl)), Hcs.
    reflexivity. }
  rewrite (bind_returned _ _ _ _ _ (get_prop_ref _ _ "oneOf" _ Hl)).
  destruct (truthy (obj_read "oneOf" o)).
  { injection Hf as <-.
    rewrite (bind_returned _ _ _ _ _ (own_props_ref _ _ _ Hl)).
    rewrite (bind_returned _ _ _ _ _ (get_prop_ref _ _ "oneOf" _ Hl)), Hcs.
    reflexivity. }
  rewrite (bind_returned _ _ _ _ _ (get_prop_ref _ _ "anyOf" _ Hl)).
  destruct (truthy (obj_read "anyOf" o)); [|discriminate].
  injection Hf as <-.
  rewrite (bind_returned _ _ _ _ _ (own_props_ref _ _ _ Hl)).
  rewrite (bind_returned _ _ _ _ _ (get_prop_ref _ _ "anyOf" _ Hl)), Hcs.
  reflexivity.
Qed.

Lemma dropProperties_combinator fuel l o field cs keys σ :
  heap σ !! l = Some o ->
  strict_eq_str (obj_read "type" o) "object" = false ->
  combinator_field o = Some field ->
  obj_read field o = VArr cs ->
  dropProperties (S fuel) (VRef l) keys σ
  = (rs <- array_map (fun x => dropProperties fuel x keys) cs ;;
     alloc (obj_set "allOf" (VArr rs) o)) σ.
Proof.
  intros Hl Hty Hf Hcs. unfold combinator_field in Hf.
  cbn [dropProperties].
  rewrite (bind_returned _ _ _ _ _ (get_prop_ref _ _ "type" _ Hl)), Hty.
  rewrite (bind_returned _ _ _ _ _ (get_prop_ref _ _ "allOf" _ Hl)).
  destruct (truthy (obj_read "allOf" o)).
  { injection Hf as <-.
    rewrite (bind_returned _ _ _ _ _ (own_props_ref _ _ _ Hl)).
    rewrite (bind_returned _ _ _ _ _ (get_prop_ref _ _ "allOf" _ Hl)), Hcs.
    reflexivity. }
  rewrite (bind_returned _ _ _ _ _ (get_prop_ref _ _ "oneOf" _ Hl)).
  destruct (truthy (obj_read "oneOf" o)).
  { injection Hf as <-.
    rewrite (bind_returned _ _ _ _ _ (own_props_ref _ _ _ Hl)).
    rewrite (bind_returned _ _ _ _ _ (get_prop_ref _ _ "oneOf" _ Hl)), Hcs.
    reflexivity. }
  rewrite (bind_returned _ _ _ _ _ (get_prop_ref _ _ "anyOf" _ Hl)).
  destruct (truthy (obj_read "anyOf" o)); [|discriminate].
  injection Hf as <-.
  rewrite (bind_returned _ _ _ _ _ (own_props_ref _ _ _ Hl)).
  rewrite (bind_returned _ _ _ _ _ (get_prop_ref _ _ "anyOf" _ Hl)), Hcs.
  reflexivity.
Qed.

(** What [array_map] returns holds, position by position, the result of the
    callback on the element at that position, each run in the store its
    predecessors left. *)
Lemma array_map_pointwise {A B} (f : A -> M B) l σ rs σ' :
  array_map f l σ = Returned rs σ' ->
  Forall2 (fun a r => exists σ1 σ2, f a σ1 = Returned r σ2) l rs.
Proof.
  revert σ rs σ'. induction l as [|a l IH]; intros σ rs σ'; cbn.
  - intros [= <- _]. constructor.
  - intros H. apply bind_inv in H as (b & σ1 & Hb & H).
    apply bind_inv in H as (bs & σ2 & Hbs & H).
    injection H as <- _. constructor; eauto.
Qed.

(** C3: on a schema that is no object schema and keeps children under
    [allOf], [oneOf] or [anyOf], both projections project every child in
    order and return a new object: the own properties of the input with
    [allOf] set to the projected children, as many as there were children,
    whichever of the three fields the children were read from.  Every other
    property of the input is carried over as it was, the [oneOf] or
    [anyOf] the children came from included. *)
Theorem projections_distribute_as_allOf fuel l o field cs keys σ :
  heap σ !! l = Some o ->
  strict_eq_str (obj_read "type" o) "object" = false ->
  combinator_field o = Some field ->
  obj_read field o = VArr cs ->
  (forall rs σ',
     array_map (fun x => pickProperties fuel x keys) cs σ = Returned rs σ' ->
     pickProperties (S fuel) (VRef l) keys σ
     = Returned (VRef (length (heap σ')))
         (mkState (resolved σ')
            (heap σ' ++ [obj_set "allOf" (VArr rs) o]))
     /\ length rs = length cs
     /\ Forall2 (fun c r => exists σ1 σ2,
                   pickProperties fuel c keys σ1 = Returned r σ2) cs rs)
  /\
  (forall rs σ',
     array_map (fun x => dropProperties fuel x keys) cs σ = Returned rs σ' ->
     dropProperties (S fuel) (VRef l) keys σ
     = Returned (VRef (length (heap σ')))
         (mkState (resolved σ')
            (heap σ' ++ [obj_set "allOf" (VArr rs) o]))
     /\ length rs = length cs
     /\ Forall2 (fun c r => exists σ1 σ2,
                   dropProperties fuel c keys σ1 = Returned r σ2) cs rs)
  /\
  (forall rs,
     obj_get "allOf" (obj_set "allOf" (VArr rs) o) = Some (VArr rs)
     /\ forall k, k <> "allOf" ->
                  obj_get k (obj_set "allOf" (VArr rs) o) = obj_get k o).
Proof.
  intros Hl Hty Hf Hcs. split; [|split].
  - intros rs σ' H. split; [|split].
    + rewrite (pickProperties_combinator _ _ _ _ _ _ _ Hl Hty Hf Hcs).
      now rewrite (bind_returned _ _ _ _ _ H).
    + exact (array_map_length _ _ _ _ _ H).
    + exact (array_map_pointwise _ _ _ _ _ H).
  - intros rs σ' H. split; [|split].
    + rewrite (dropProperties_combinator _ _ _ _ _ _ _ Hl Hty Hf Hcs).
      now rewrite (bind_returned _ _ _ _ _ H).
    + exact (array_map_length _ _ _ _ _ H).
    + exact (array_map_pointwise _ _ _ _ _ H).
  - intros rs. split.
    + now rewrite obj_get_set, String.eqb_refl.
    + intros k Hk. rewrite obj_get_set.
      now destruct (String.eqb_spec k "allOf").
Qed.

(** ** The resolution cache (C1) *)

Lemma inherited_cases k :
  (inherited k = VUndef /\ truthy (inherited k) = false)
  \/ (inherited k = VBuiltin k /\ truthy (inherited k) = true).
Proof. unfold inherited. destruct (existsb _ _); auto. Qed.

Lemma inherited_own_name k : ~ In k Object_prototype -> inherited k = VUndef.
Proof.
  intros Hn. unfold inherited.
  destruct (existsb _ _) eqn:He; [|done].
  apply existsb_exists in He as (k' & Hk & He).
  apply String.eqb_eq in He as <-. done.
Qed.

Lemma not_in_Object_prototype k :
  existsb (String.eqb k) Object_prototype = false -> ~ In k Object_prototype.
Proof.
  intros He Hin. apply not_true_iff_false in He. apply He.
  apply existsb_exists. exists k. split; [done|apply String.eqb_refl].
Qed.

Lemma inherited_member k :
  In k Object_prototype -> inherited k = VBuiltin k.
Proof.
  intros Hin. unfold inherited.
  replace (existsb (String.eqb k) Object_prototype) with true; [done|].
  symmetry. apply existsb_exists. exists k.
  split; [done|apply String.eqb_refl].
Qed.

Lemma resolve_hit fuel name σ v :
  resolved σ !! name = Some v -> truthy v = true ->
  resolve fuel name σ = Returned v σ.
Proof.
  intros Hv Ht. unfold resolve, resolve_with, map_lookup. rewrite Hv. cbn.
  now rewrite Ht.
Qed.

(** A name that has no cache entry and that [Object.prototype] answers is
    a hit all the same. *)
Lemma resolve_inherited fuel name σ :
  resolved σ !! name = None -> truthy (inherited name) = true ->
  resolve fuel name σ = Returned (VBuiltin name) σ.
Proof.
  intros Hv Ht. unfold resolve, resolve_with, map_lookup. rewrite Hv. cbn.
  rewrite Ht.
  destruct (inherited_cases name) as [[_ H]|[-> _]]; [congruence|done].
Qed.

Lemma resolve_miss fuel name σ :
  truthy (map_lookup (resolved σ) name) = false ->
  resolve fuel name σ
  = match decls !! name with
    | Some body =>
        match getTypeDefinition fuel body σ with
        | Returned v σ' =>
            Returned v (mkState (<[name := v]> (resolved σ')) (heap σ'))
        | Thrown e => Thrown e
        | Unmodelled => Unmodelled
        | OutOfFuel => OutOfFuel
        end
    | None =>
        if truthy (inherited name) then Thrown UnsupportedNode
        else Thrown (NotFound name)
    end.
Proof.
  intros Hm. unfold resolve, resolve_with. rewrite Hm.
  destruct (decls !! name) as [body|]; [|done].
  unfold bind. destruct (getTypeDefinition fuel body σ); try done.
  unfold map_lookup. cbn. now rewrite lookup_insert_eq.
Qed.

(** Without a member of that name in [Object.prototype], the cache is read
    among its own entries. *)
Lemma map_lookup_own m name :
  inherited name = VUndef -> map_lookup m name = default VUndef (m !! name).
Proof. intros H. unfold map_lookup. now rewrite H. Qed.

(** Whatever [resolve] returns is truthy and is, afterwards, what the cache
    answers under the name: its own entry, or else, in the store as it was,
    the member of [Object.prototype]. *)
Lemma resolve_returned_cached fuel name σ v σ' :
  resolve fuel name σ = Returned v σ' ->
  truthy v = true
  /\ (resolved σ' !! name = Some v
      \/ (resolved σ' !! name = None /\ v = VBuiltin name /\ σ' = σ
          /\ truthy (inherited name) = true)).
Proof.
  destruct (truthy (map_lookup (resolved σ) name)) eqn:Ht.
  - unfold resolve, resolve_with. rewrite Ht. intros [= <- <-].
    split; [done|]. unfold map_lookup in *.
    destruct (resolved σ !! name) as [v|]; [auto|]. right. cbn in *.
    destruct (inherited_cases name) as [[_ H]|[-> _]]; [congruence|done].
  - rewrite (resolve_miss _ _ _ Ht).
    destruct (decls !! name) as [body|];
      [|destruct (truthy (inherited name)); discriminate].
    destruct (getTypeDefinition fuel body σ) as [v0 σ0| | |] eqn:Hd;
      try discriminate.
    intros [= <- <-]. cbn. split; [|left; apply lookup_insert_eq].
    destruct (getTypeDefinition_fresh _ _ _ _ _ Hd) as (h & o & _ & ->).
    done.
Qed.

Lemma resolve_again fuel name σ v σ' :
  resolve fuel name σ = Returned v σ' ->
  forall fuel', resolve fuel' name σ' = Returned v σ'.
Proof.
  intros H fuel'.
  destruct (resolve_returned_cached _ _ _ _ _ H)
    as [Ht [Hc|(Hc & -> & -> & Hi)]].
  - now apply resolve_hit.
  - now apply resolve_inherited.
Qed.

(** C1: the claim fails on the names of the members of [Object.prototype].
    [resolved] is an object literal, so for such a name without a cache
    entry [resolved[name]] is the inherited member, which is truthy:
    [resolve] returns it as a hit, in an unchanged store, whatever the
    declaration table holds.  It neither fails when the name is not
    declared nor derives and stores the body when it is. *)
Theorem resolve_answers_prototype_names fuel name σ :
  In name Object_prototype ->
  resolved σ !! name = None ->
  resolve fuel name σ = Returned (VBuiltin name) σ
  /\ (operator_of name = None ->
      forall tags,
        getTypeDefinition (S fuel) (TypeReferenceNode tags name None) σ
        = Returned (VRef (length (heap σ)))
            (mkState (resolved σ)
               (heap σ ++ [obj_assign [] (jsdocTag tags)]))).
Proof.
  intros Hin Hc.
  assert (truthy (inherited name) = true) as Ht
    by (now rewrite inherited_member).
  pose proof (resolve_inherited fuel name σ Hc Ht) as Hres.
  split; [exact Hres|]. intros Hop tags.
  cbn [getTypeDefinition]. unfold getTypeDefinition_body. rewrite Hop.
  fold (resolve fuel name). now rewrite (bind_returned _ _ _ _ _ Hres).
Qed.

(** X17: [resolve] answers from the cache when the name has a truthy entry,
    and then returns that entry and leaves the store as it was, with no
    call of the derivation (any fuel will do, none included).  For a name
    that is not the name of a member of [Object.prototype] and has no such
    entry, it fails with "not found" when the name is not declared, and
    otherwise derives the declared body, writes the result under the name
    and returns it.  And for every name, whenever a call of [resolve]
    returns, a second call on the same name returns the same value in an
    unchanged store, again with no call of the derivation. *)
Theorem resolve_memoises name σ :
  (forall fuel v,
     resolved σ !! name = Some v -> truthy v = true ->
     resolve fuel name σ = Returned v σ)
  /\
  (forall fuel,
     ~ In name Object_prototype ->
     truthy (default VUndef (resolved σ !! name)) = false ->
     decls !! name = None ->
     resolve fuel name σ = Thrown (NotFound name))
  /\
  (forall fuel body,
     ~ In name Object_prototype ->
     truthy (default VUndef (resolved σ !! name)) = false ->
     decls !! name = Some body ->
     resolve fuel name σ
     = match getTypeDefinition fuel body σ with
       | Returned v σ' =>
           Returned v (mkState (<[name := v]> (resolved σ')) (heap σ'))
       | Thrown e => Thrown e
       | Unmodelled => Unmodelled
       | OutOfFuel => OutOfFuel
       end)
  /\
  (forall fuel v σ',
     resolve fuel name σ = Returned v σ' ->
     forall fuel', resolve fuel' name σ' = Returned v σ').
Proof.
  split; [|split; [|split]].
  - intros fuel v. apply resolve_hit.
  - intros fuel Hn Hm Hd.
    rewrite <- map_lookup_own in Hm by (now apply inherited_own_name).
    rewrite (resolve_miss _ _ _ Hm), Hd.
    now rewrite (inherited_own_name _ Hn).
  - intros fuel body Hn Hm Hd.
    rewrite <- map_lookup_own in Hm by (now apply inherited_own_name).
    rewrite (resolve_miss _ _ _ Hm). now rewrite Hd.
  - intros fuel v σ'. apply resolve_again.
Qed.

(** ** Operators over a cached declaration (C8) *)

Lemma obj_read_tags k o tags :
  k ∉ map fst tags -> obj_read k (obj_assign o (jsdocTag tags)) = obj_read k o.
Proof.
  intros Hk. unfold obj_read. rewrite obj_get_assign_None; [done|].
  destruct (obj_get k (jsdocTag tags)) eqn:Hg; [|done].
  exfalso. apply Hk. apply obj_get_jsdocTag. eauto.
Qed.

Lemma obj_get_delete_all k ks pm :
  obj_get k (delete_all ks pm) = if decide (k ∈ ks) then None else obj_get k pm.
Proof.
  unfold delete_all. revert pm.
  induction ks as [|k0 ks IH]; intros pm; cbn [fold_left].
  - case_decide as H; [now apply elem_of_nil in H|done].
  - rewrite IH, obj_get_delete.
    destruct (decide (k ∈ ks)) as [Hin|Hnin].
    + rewrite decide_True; [done|]. apply elem_of_cons. auto.
    + destruct (String.eqb_spec k k0) as [->|Hne].
      * rewrite decide_True; [done|]. apply elem_of_cons. auto.
      * rewrite decide_False; [done|]. rewrite elem_of_cons. tauto.
Qed.

(** A reference to a cached declaration is served from the cache and copied:
    the cache and every object already in the store stay as they were. *)
Lemma derive_cached_reference n ttags name σ c o :
  operator_of name = None ->
  resolved σ !! name = Some (VRef c) -> heap σ !! c = Some o ->
  getTypeDefinition (S n) (TypeReferenceNode ttags name None) σ
  = Returned (VRef (length (heap σ)))
      (mkState (resolved σ) (heap σ ++ [obj_assign o (jsdocTag ttags)])).
Proof.
  intros Hop Hc Ho. cbn [getTypeDefinition]. unfold getTypeDefinition_body.
  rewrite Hop.
  assert (resolve_with (getTypeDefinition n) name σ = Returned (VRef c) σ)
    as Hr.
  { exact (resolve_hit n name σ (VRef c) Hc eq_refl). }
  rewrite (bind_returned _ _ _ _ _ Hr).
  now apply spread_literal_ref.
Qed.

Lemma key_literals_run n K ks σ :
  key_literals K ks ->
  exists ko,
    obj_read "enum" ko = VArr (map VStr ks) /\
    getTypeDefinition (S n) K σ
    = Returned (VRef (length (heap σ)))
        (mkState (resolved σ) (heap σ ++ [ko])).
Proof.
  destruct K as [| | | |ktags [k| |]|ktags alts| | | |]; cbn; try done.
  - intros [-> Hk]. eexists. split; [|reflexivity].
    now rewrite obj_read_tags.
  - intros [Hall Hk].
    exists (obj_assign [("enum", VArr (map VStr ks))] (jsdocTag ktags)).
    split; [now rewrite obj_read_tags|].
    unfold getTypeDefinition_body.
    rewrite (literals_of_strings _ _ Hall).
    rewrite string_literals_strings, length_map.
    now rewrite (Forall2_length _ _ _ Hall), Nat.eqb_refl.
Qed.

(** The loop of [dropProperties] on an object schema: the keys are deleted,
    one after the other, from the one object that [def.properties] denotes. *)
Lemma forEach_delete_index d o1 p ks R : forall h pm,
  d <> p ->
  h !! d = Some o1 -> obj_read "properties" o1 = VRef p ->
  h !! p = Some pm ->
  forEach (fun k => dp <- get_prop (VRef d) "properties" ;; delete_index dp k)
    (map VStr ks) (mkState R h)
  = Returned tt (mkState R (<[p := delete_all ks pm]> h)).
Proof.
  induction ks as [|k ks IH]; intros h pm Hdp Hd Hprops Hp; cbn.
  - unfold ret. now rewrite list_insert_id.
  - assert (p < length h) as Hlt by (now apply lookup_lt_Some in Hp).
    unfold bind at 1 2. unfold get_prop, load, bind at 1; cbn.
    rewrite Hd, Hprops. cbn. unfold load, bind at 1; cbn. rewrite Hp. cbn.
    rewrite (IH _ (obj_delete k pm)); try done.
    + now rewrite list_insert_insert_eq.
    + now rewrite list_lookup_insert_ne.
    + now apply list_lookup_insert_eq.
Qed.

(** [dropProperties] on an object schema: the keys go from the object that
    [def.properties] denotes, which is not copied; the result is a new
    object with the own properties of [def] and [required] filtered. *)
Lemma dropProperties_object n d o1 p pm req ks R h :
  d <> p ->
  h !! d = Some o1 -> h !! p = Some pm ->
  obj_read "type" o1 = VStr "object" ->
  obj_read "properties" o1 = VRef p ->
  obj_read "required" o1 = VArr req ->
  dropProperties (S n) (VRef d) (VArr (map VStr ks)) (mkState R h)
  = Returned (VRef (length h))
      (mkState R
         (<[p := delete_all ks pm]> h ++
            [obj_set "required"
               (VArr (List.filter
                        (fun x => negb (includes (map VStr ks) x)) req))
               o1])).
Proof.
  intros Hdp Hd Hp Hty Hprops Hreq.
  assert (<[p := delete_all ks pm]> h !! d = Some o1) as Hd'
    by (now rewrite list_lookup_insert_ne).
  cbn [dropProperties].
  rewrite (bind_returned _ _ (mkState R h) _ _
             (get_prop_ref d o1 "type" (mkState R h) Hd)).
  rewrite Hty. cbn [strict_eq_str]. rewrite String.eqb_refl.
  cbn [as_array]. unfold bind at 1. unfold ret at 1.
  unfold bind at 1.
  rewrite (forEach_delete_index d o1 p ks R h pm); try done.
  rewrite (bind_returned _ _ _ _ _
             (own_props_ref d o1 (mkState R _) Hd')).
  rewrite (bind_returned _ _ _ _ _
             (get_prop_ref d o1 "required" (mkState R _) Hd')).
  rewrite Hreq. cbn [as_array]. unfold bind, ret, alloc. cbn.
  now rewrite length_insert.
Qed.

Lemma omit_cached_run n name ttags tags K ks σ c o p pm req :
  operator_of name = None ->
  resolved σ !! name = Some (VRef c) -> heap σ !! c = Some o ->
  key_literals K ks ->
  (forall k, k ∈ ["type"; "properties"; "required"] -> k ∉ map fst ttags) ->
  obj_read "type" o = VStr "object" ->
  obj_read "properties" o = VRef p -> heap σ !! p = Some pm ->
  obj_read "required" o = VArr req ->
  exists o1 ko dropped,
    getTypeDefinition (S (S n))
      (TypeReferenceNode tags "Omit"
         (Some [TypeReferenceNode ttags name None; K])) σ
    = Returned (VRef (S (S (S (length (heap σ))))))
        (mkState (resolved σ)
           ((<[p := delete_all ks pm]> (heap σ ++ [o1; ko]) ++ [dropped])
              ++ [obj_assign dropped (jsdocTag tags)])).
Proof.
  intros Hop Hc Ho HK Htags Hty Hprops Hp Hreq.
  set (o1 := obj_assign o (jsdocTag ttags)).
  set (σ1 := mkState (resolved σ) (heap σ ++ [o1])).
  destruct (key_literals_run n K ks σ1 HK) as (ko & Henum & Hrun).
  assert (p < length (heap σ)) as Hlt by (now apply lookup_lt_Some in Hp).
  set (h2 := heap σ ++ [o1; ko]).
  assert (h2 !! length (heap σ) = Some o1) as Hd.
  { subst h2. now rewrite (list_lookup_middle (heap σ) [ko] o1). }
  assert (h2 !! p = Some pm) as Hp2.
  { subst h2. now rewrite lookup_app_l. }
  assert (h2 !! S (length (heap σ)) = Some ko) as Hk2.
  { subst h2. rewrite lookup_app_r by lia.
    now replace (S (length (heap σ)) - length (heap σ)) with 1 by lia. }
  exists o1, ko.
  eexists.
  cbn [getTypeDefinition]. unfold getTypeDefinition_body. cbn.
  rewrite (bind_returned _ _ _ _ _
             (derive_cached_reference n ttags name σ c o Hop Hc Ho)).
  fold o1. fold σ1. rewrite (bind_returned _ _ _ _ _ Hrun).
  subst σ1. cbn [heap resolved]. rewrite <- app_assoc. cbn [app].
  fold h2. rewrite length_app. cbn [length]. rewrite Nat.add_1_r.
  rewrite (bind_returned _ _ _ _ _
             (get_prop_ref _ ko "enum" (mkState (resolved σ) h2) Hk2)).
  rewrite Henum.
  rewrite (bind_returned _ _ _ _ _
             (dropProperties_object n (length (heap σ)) o1 p pm req ks
                (resolved σ) h2 ltac:(lia) Hd Hp2
                ltac:(subst o1; rewrite obj_read_tags;
                      [done|apply Htags; set_solver])
                ltac:(subst o1; rewrite obj_read_tags;
                      [done|apply Htags; set_solver])
                ltac:(subst o1; rewrite obj_read_tags;
                      [done|apply Htags; set_solver]))).
  assert (length h2 = S (S (length (heap σ)))) as Hlen.
  { subst h2. rewrite length_app. cbn. lia. }
  rewrite Hlen.
  erewrite spread_literal_ref.
  2:{ cbn [heap]. rewrite lookup_app_r; rewrite length_insert, Hlen; [|lia].
      now rewrite Nat.sub_diag. }
  cbn [heap resolved]. rewrite length_app, length_insert, Hlen. cbn [length].
  rewrite Nat.add_1_r. reflexivity.
Qed.

(** C8, as the code has it.  Let the name be in the cache.  Deriving
    [Omit<T, K>] over a reference [T] to it deletes the keys of [K] from the
    object that the cached schema holds under [properties]: the reference is
    copied one level deep, so the copy and the cache share that object.
    Every later [resolve] of the name returns the cached object, whose
    properties now lack the keys.  Deriving [Partial<T>] deletes [required]
    from the copy only: the cache and every object that was in the store
    stay as they were. *)
Theorem operators_over_cached_declaration n name ttags tags σ c o :
  operator_of name = None ->
  resolved σ !! name = Some (VRef c) ->
  heap σ !! c = Some o ->
  let T := TypeReferenceNode ttags name None in
  (forall K ks p pm req,
     key_literals K ks ->
     (forall k, k ∈ ["type"; "properties"; "required"] ->
                k ∉ map fst ttags) ->
     obj_read "type" o = VStr "object" ->
     obj_read "properties" o = VRef p -> heap σ !! p = Some pm ->
     obj_read "required" o = VArr req ->
     exists r σ',
       getTypeDefinition (S (S n))
         (TypeReferenceNode tags "Omit" (Some [T; K])) σ = Returned r σ'
       /\ resolved σ' = resolved σ
       /\ heap σ' !! p = Some (delete_all ks pm)
       /\ (forall k, k ∈ ks -> obj_get k (delete_all ks pm) = None)
       /\ (forall l, l < length (heap σ) -> l <> p ->
                     heap σ' !! l = heap σ !! l)
       /\ (forall fuel, resolve fuel name σ' = Returned (VRef c) σ'))
  /\
  (exists r σ',
     getTypeDefinition (S (S n))
       (TypeReferenceNode tags "Partial" (Some [T])) σ = Returned r σ'
     /\ resolved σ' = resolved σ
     /\ (forall l, l < length (heap σ) -> heap σ' !! l = heap σ !! l)
     /\ (forall fuel, resolve fuel name σ' = Returned (VRef c) σ')).
Proof.
  intros Hop Hc Ho T. split.
  - intros K ks p pm req HK Htags Hty Hprops Hp Hreq.
    destruct (omit_cached_run n name ttags tags K ks σ c o p pm req)
      as (o1 & ko & dropped & Hrun); try done.
    assert (p < length (heap σ)) as Hlt by (now apply lookup_lt_Some in Hp).
    assert (forall l, l < length (heap σ) ->
              ((<[p := delete_all ks pm]> (heap σ ++ [o1; ko]) ++ [dropped])
                 ++ [obj_assign dropped (jsdocTag tags)]) !! l
              = <[p := delete_all ks pm]> (heap σ) !! l) as Hold.
    { intros l Hl.
      rewrite !lookup_app_l
        by (rewrite ?length_app, ?length_insert, ?length_app; cbn; lia).
      rewrite insert_app_l by done.
      rewrite lookup_app_l by (rewrite length_insert; lia). done. }
    eexists _, _. split; [exact Hrun|]. cbn [resolved heap].
    split; [done|]. split; [|split; [|split]].
    + rewrite Hold by done. now apply list_lookup_insert_eq.
    + intros k Hk. rewrite obj_get_delete_all. now rewrite decide_True.
    + intros l Hl Hne. rewrite Hold by done.
      now rewrite list_lookup_insert_ne.
    + intros fuel. now apply resolve_hit.
  - assert (getTypeDefinition (S n) T σ
            = Returned (VRef (length (heap σ)))
                (mkState (resolved σ)
                   (heap σ ++ [obj_assign o (jsdocTag ttags)]))) as HT
      by (now apply derive_cached_reference with (c := c)).
    eexists _, _. split.
    { eapply partial_run; [exact HT|].
      cbn [heap]. now apply list_lookup_middle. }
    cbn [resolved heap]. split; [done|]. split.
    + intros l Hl.
      rewrite insert_app_r_alt by lia. rewrite Nat.sub_diag. cbn.
      rewrite <- app_assoc. now rewrite lookup_app_l.
    + intros fuel. now apply resolve_hit.
Qed.

End Properties.

(** * Further properties of the code *)

Section Coverage.

Context {E : Environment}.

(** ** The scan *)







(** ** What a run does to the store *)

Section Steps.

Context (R : state -> state -> Prop) `{!PreOrder R}.

Lemma steps_stateless {A} (m : M A) : stateless m -> steps R m.
Proof. intros H σ a σ' Hm. now rewrite (H _ _ _ Hm). Qed.

Lemma steps_bind {A B} (m : M A) (k : A -> M B) :
  steps R m -> (forall a, steps R (k a)) -> steps R (bind m k).
Proof.
  intros Hm Hk σ b σ' H. apply bind_inv in H as (a & σ1 & H1 & H2).
  etrans; [exact (Hm _ _ _ H1)|exact (Hk _ _ _ _ H2)].
Qed.

Lemma steps_array_map {A B} (f : A -> M B) l :
  (forall a, steps R (f a)) -> steps R (array_map f l).
Proof.
  intros H. induction l as [|a l IH]; cbn.
  - apply steps_stateless. now intros σ a σ' [= _ <-].
  - apply steps_bind; [apply H|]. intros b.
    apply steps_bind; [apply IH|]. intros bs.
    apply steps_stateless. now intros σ a' σ' [= _ <-].
Qed.

Lemma steps_forEach {A} (f : A -> M unit) l :
  (forall a, steps R (f a)) -> steps R (forEach f l).
Proof.
  intros H. induction l as [|a l IH]; cbn.
  - apply steps_stateless. now intros σ a σ' [= _ <-].
  - apply steps_bind; [apply H|]. intros _. apply IH.
Qed.

Lemma steps_derive_members (d : option TypeNode -> M value) sigs acc :
  (forall o, steps R (d o)) -> steps R (derive_members d sigs acc).
Proof.
  intros H. revert acc.
  induction sigs as [|[[name q] ty] sigs IH]; intros acc; cbn.
  - apply steps_stateless. now intros σ a σ' [= _ <-].
  - apply steps_bind; [apply H|]. intros v. apply IH.
Qed.

End Steps.

Lemma stateless_ret {A} (a : A) : stateless (ret a).
Proof. now intros σ a' σ' [= _ <-]. Qed.

Lemma stateless_throw {A} e : stateless (@throw A e).
Proof. intros σ a σ' H. discriminate H. Qed.

Lemma stateless_unmodelled {A} : stateless (@unmodelled A).
Proof. intros σ a σ' H. discriminate H. Qed.

Lemma stateless_out_of_fuel {A} : stateless (@out_of_fuel A).
Proof. intros σ a σ' H. discriminate H. Qed.

Lemma stateless_load l : stateless (load l).
Proof.
  intros σ a σ'. unfold load. destruct (heap σ !! l); [|discriminate].
  now intros [= _ <-].
Qed.

Lemma stateless_bind {A B} (m : M A) (k : A -> M B) :
  stateless m -> (forall a, stateless (k a)) -> stateless (bind m k).
Proof.
  intros Hm Hk σ b σ' H. apply bind_inv in H as (a & σ1 & H1 & H2).
  rewrite (Hk _ _ _ _ H2). exact (Hm _ _ _ H1).
Qed.

Lemma stateless_get_prop v k : stateless (get_prop v k).
Proof.
  destruct v; cbn;
    auto using stateless_throw, stateless_unmodelled, stateless_bind,
      stateless_load, stateless_ret.
Qed.

Lemma stateless_own_props v : stateless (own_props v).
Proof.
  destruct v; cbn;
    auto using stateless_unmodelled, stateless_load, stateless_ret.
Qed.

Lemma stateless_Object_keys v : stateless (Object_keys v).
Proof.
  destruct v; cbn;
    auto using stateless_throw, stateless_unmodelled, stateless_bind,
      stateless_load, stateless_ret.
Qed.

Lemma stateless_as_array v : stateless (as_array v).
Proof. destruct v; cbn; auto using stateless_throw, stateless_ret. Qed.

Lemma stateless_ToPropertyKey p : stateless (ToPropertyKey p).
Proof. destruct p; cbn; auto using stateless_unmodelled, stateless_ret. Qed.

Lemma stateless_get_index target p : stateless (get_index target p).
Proof.
  destruct target; cbn;
    auto 6 using stateless_throw, stateless_unmodelled, stateless_bind,
      stateless_load, stateless_ret, stateless_ToPropertyKey.
Qed.

(** *** The store grows, cache entries stay *)

#[local] Instance extends_preorder : PreOrder extends.
Proof.
  split.
  - intros σ. split; [lia|auto].
  - intros σ1 σ2 σ3 [H1 Hc1] [H2 Hc2]. split; [lia|].
    intros name Ht. rewrite <- (Hc1 name Ht). apply Hc2.
    unfold map_lookup in *. now rewrite (Hc1 name Ht).
Qed.

Lemma extends_alloc o : steps extends (alloc o).
Proof.
  intros σ a σ' [= _ <-]. split; cbn; [rewrite length_app; lia|auto].
Qed.

Lemma extends_store l o : steps extends (store l o).
Proof.
  intros σ a σ' [= _ <-]. split; cbn; [rewrite length_insert; lia|auto].
Qed.

Lemma extends_resolve_with (d : TypeNode -> M value) name :
  (forall t, steps extends (d t)) -> steps extends (resolve_with d name).
Proof.
  intros Hd σ a σ'. unfold resolve_with.
  destruct (truthy (map_lookup (resolved σ) name)) eqn:Hmiss.
  - intros [= _ <-]. reflexivity.
  - destruct (decls !! name) as [body|];
      [|destruct (truthy (inherited name)); discriminate].
    intros H. apply bind_inv in H as (v & σ1 & Hv & H).
    injection H as _ <-. destruct (Hd _ _ _ _ Hv) as [Hlen Hcache].
    split; [exact Hlen|]. cbn. intros name' Ht.
    destruct (decide (name = name')) as [<-|Hne]; [congruence|].
    rewrite lookup_insert_ne by done. auto.
Qed.

Ltac step_extends :=
  repeat first
    [ match goal with
      | H : forall t, steps extends (?d t) |- steps extends (?d _) => apply H
      | H : forall a b, steps extends (?p a b) |- steps extends (?p _ _) =>
          apply H
      | H : forall a b, steps extends (?p a b) |- steps extends _ => apply H
      end
    | apply extends_alloc
    | apply extends_store
    | apply (steps_stateless extends);
        solve [ auto using stateless_ret, stateless_throw,
                  stateless_unmodelled, stateless_out_of_fuel,
                  stateless_load, stateless_get_prop, stateless_own_props,
                  stateless_Object_keys, stateless_as_array,
                  stateless_ToPropertyKey, stateless_get_index ]
    | apply (steps_bind extends); [|intros ?; cbv beta]
    | apply (steps_array_map extends); intros ?; cbv beta
    | apply (steps_forEach extends); intros ?; cbv beta
    | apply (steps_derive_members extends); intros ?; cbv beta
    | apply extends_resolve_with; intros ?; cbv beta
    | match goal with
      | |- steps extends (if ?b then _ else _) => destruct b
      | |- steps extends (match ?x with _ => _ end) => destruct x
      end ].

Lemma extends_set_prop v k x : steps extends (set_prop v k x).
Proof. unfold set_prop. step_extends. Qed.

Lemma extends_delete_prop v k : steps extends (delete_prop v k).
Proof. unfold delete_prop. step_extends. Qed.

Lemma extends_set_index target p x : steps extends (set_index target p x).
Proof. unfold set_index. step_extends. Qed.

Lemma extends_delete_index target p : steps extends (delete_index target p).
Proof. unfold delete_index. step_extends. Qed.

Lemma extends_object_literal fields tags :
  steps extends (object_literal fields tags).
Proof. apply extends_alloc. Qed.

Lemma extends_spread_literal def tags :
  steps extends (spread_literal def tags).
Proof. unfold spread_literal, object_literal. step_extends. Qed.

Ltac step_extends' :=
  repeat first
    [ apply extends_set_prop | apply extends_delete_prop
    | apply extends_set_index | apply extends_delete_index
    | apply extends_object_literal | apply extends_spread_literal
    | progress step_extends ].

Lemma extends_pickProperties n : forall def keys,
  steps extends (pickProperties n def keys).
Proof.
  induction n as [|n IH]; intros def keys; cbn [pickProperties];
    step_extends'.
Qed.

Lemma extends_dropProperties n : forall def keys,
  steps extends (dropProperties n def keys).
Proof.
  induction n as [|n IH]; intros def keys; cbn [dropProperties];
    step_extends'.
Qed.

Lemma extends_getTypeDefinition_body
    (d : TypeNode -> M value) (p q : value -> value -> M value) t :
  (forall t, steps extends (d t)) ->
  (forall a b, steps extends (p a b)) ->
  (forall a b, steps extends (q a b)) ->
  steps extends (getTypeDefinition_body d p q t).
Proof.
  intros Hd Hp Hq. unfold getTypeDefinition_body.
  destruct t as [tags k|tags ms|tags el|tags name args|tags lit|tags ts
                |tags ts|tags op ty|tags c e tt ff|tags]; step_extends'.
Qed.

Lemma extends_getTypeDefinition n : forall t,
  steps extends (getTypeDefinition n t).
Proof.
  induction n as [|n IH]; intros t; cbn [getTypeDefinition].
  - step_extends.
  - apply extends_getTypeDefinition_body;
      auto using extends_pickProperties, extends_dropProperties.
Qed.

Lemma extends_resolve n name : steps extends (resolve n name).
Proof.
  unfold resolve. apply extends_resolve_with. apply extends_getTypeDefinition.
Qed.

(** X3: neither a derivation nor a [resolve] ever removes an object from the
    store, and neither removes or replaces a cache entry that holds an
    object: a cache entry is written once. *)
Theorem cache_entries_are_written_once fuel σ σ' :
  (exists t v, getTypeDefinition fuel t σ = Returned v σ')
  \/ (exists name v, resolve fuel name σ = Returned v σ') ->
  length (heap σ) <= length (heap σ')
  /\ forall name c,
       resolved σ !! name = Some c -> truthy c = true ->
       resolved σ' !! name = Some c.
Proof.
  intros Hrun.
  assert (extends σ σ') as [Hlen Hcache].
  { destruct Hrun as [(t & v & H)|(name & v & H)].
    - exact (extends_getTypeDefinition _ _ _ _ _ H).
    - exact (extends_resolve _ _ _ _ _ H). }
  split; [exact Hlen|]. intros name c Hc Ht.
  rewrite Hcache; [done|]. unfold map_lookup. now rewrite Hc.
Qed.

(** *** What a derivation returns *)

Lemma yields_object_literal fields tags :
  yields_literal tags (object_literal fields tags).
Proof.
  intros σ a σ' [= <- <-]. exists (heap σ), fields. cbn. auto.
Qed.

Lemma yields_spread_literal def tags :
  yields_literal tags (spread_literal def tags).
Proof.
  intros σ a σ' H. unfold spread_literal in H.
  apply bind_inv in H as (o & σ1 & Ho & H).
  rewrite (stateless_own_props _ _ _ _ Ho) in H.
  exact (yields_object_literal _ _ _ _ _ H).
Qed.

Lemma yields_bind {A} tags (m : M A) (k : A -> M value) :
  steps extends m -> (forall a, yields_literal tags (k a)) ->
  yields_literal tags (bind m k).
Proof.
  intros Hm Hk σ b σ' H. apply bind_inv in H as (a & σ1 & H1 & H2).
  destruct (Hm _ _ _ H1) as [Hlen _].
  destruct (Hk _ _ _ _ H2) as (h & fields & Hh & Hb & Hle).
  exists h, fields. repeat split; [done|done|lia].
Qed.

Lemma yields_throw tags e : yields_literal tags (throw e).
Proof. intros σ a σ' H. discriminate H. Qed.

Ltac yields :=
  repeat first
    [ apply yields_object_literal
    | apply yields_spread_literal
    | apply yields_throw
    | apply yields_bind; [solve [step_extends']|intros ?; cbv beta]
    | match goal with
      | |- yields_literal _ (if ?b then _ else _) => destruct b
      | |- yields_literal _ (match ?x with _ => _ end) => destruct x
      end ].

Lemma yields_getTypeDefinition_body
    (d : TypeNode -> M value) (p q : value -> value -> M value) t :
  (forall t, steps extends (d t)) ->
  (forall a b, steps extends (p a b)) ->
  (forall a b, steps extends (q a b)) ->
  yields_literal (tags_of t) (getTypeDefinition_body d p q t).
Proof.
  intros Hd Hp Hq. unfold getTypeDefinition_body.
  destruct t as [tags k|tags ms|tags el|tags name args|tags lit|tags ts
                |tags ts|tags op ty|tags c e tt ff|tags];
    cbn [tags_of]; yields.
Qed.

Lemma yields_getTypeDefinition n t :
  yields_literal (tags_of t) (getTypeDefinition n t).
Proof.
  destruct n as [|n]; cbn [getTypeDefinition].
  - intros σ a σ' H. discriminate H.
  - apply yields_getTypeDefinition_body;
      auto using extends_getTypeDefinition, extends_pickProperties,
        extends_dropProperties.
Qed.

(** X4: what a derivation returns is an object it has just built, at an
    address that was not in use when the derivation started: not an object
    the store already held, such as a cached schema. *)
Theorem derivation_returns_a_new_object fuel t σ v σ' :
  getTypeDefinition fuel t σ = Returned v σ' ->
  exists l o,
    v = VRef l /\ heap σ' !! l = Some o
    /\ length (heap σ) <= l
    /\ heap σ !! l = None.
Proof.
  intros H.
  destruct (yields_getTypeDefinition _ _ _ _ _ H)
    as (h & fields & Hh & -> & Hle).
  exists (length h), (obj_assign fields (jsdocTag (tags_of t))).
  split; [done|]. split; [rewrite Hh; now apply list_lookup_middle|].
  split; [done|]. now apply lookup_ge_None.
Qed.

(** *** Tags *)








(** ** Projections *)

#[local] Instance frame_preorder n0 : PreOrder (frame n0).
Proof.
  split.
  - intros σ H. auto.
  - intros σ1 σ2 σ3 H12 H23 H.
    destruct (H12 H) as (H2 & Hl12 & Hc12).
    destruct (H23 H2) as (H3 & Hl23 & Hc23).
    split; [done|]. split; [|congruence].
    intros l Hl. rewrite Hl23 by done. auto.
Qed.

Lemma frame_alloc n0 o : steps (frame n0) (alloc o).
Proof.
  intros σ a σ' [= _ <-] H. cbn. rewrite length_app. split; [lia|].
  split; [|done]. intros l Hl. apply lookup_app_l. lia.
Qed.

Lemma frame_store n0 l o : n0 <= l -> steps (frame n0) (store l o).
Proof.
  intros Hl σ a σ' [= _ <-] H. cbn. rewrite length_insert. split; [done|].
  split; [|done]. intros l' Hl'. apply list_lookup_insert_ne. lia.
Qed.

Lemma frame_set_index n0 l p x :
  n0 <= l -> steps (frame n0) (set_index (VRef l) p x).
Proof.
  intros Hl. cbn.
  apply (steps_bind (frame n0));
    [apply (steps_stateless (frame n0)), stateless_ToPropertyKey|].
  intros k.
  apply (steps_bind (frame n0));
    [apply (steps_stateless (frame n0)), stateless_load|].
  intros o. now apply frame_store.
Qed.

(** An object literal is at an address no older than the store. *)
Lemma frame_bind_alloc {B} n0 o (k : value -> M B) :
  (forall l, n0 <= l -> steps (frame n0) (k (VRef l))) ->
  steps (frame n0) (bind (alloc o) k).
Proof.
  intros Hk σ b σ' H Hpre. unfold bind, alloc in H.
  destruct (Hk (length (heap σ)) Hpre _ _ _ H) as (Hlen & Hold & Hc).
  { cbn. rewrite length_app. lia. }
  split; [done|]. split; [|done].
  intros l Hl. rewrite Hold by done. cbn. apply lookup_app_l. lia.
Qed.

Ltac step_frame n0 :=
  repeat first
    [ match goal with
      | H : forall a b n, steps (frame n) (?p a b) |- steps (frame _) (?p _ _) =>
          apply H
      | H : forall a b n, steps (frame n) (?p a b) |- steps (frame _) _ =>
          apply H
      | H : n0 <= ?l |- steps (frame n0) (set_index (VRef ?l) _ _) =>
          apply (frame_set_index n0 l _ _ H)
      end
    | apply frame_alloc
    | apply (steps_stateless (frame n0));
        solve [ auto using stateless_ret, stateless_throw,
                  stateless_unmodelled, stateless_out_of_fuel,
                  stateless_load, stateless_get_prop, stateless_own_props,
                  stateless_Object_keys, stateless_as_array,
                  stateless_ToPropertyKey, stateless_get_index ]
    | apply frame_bind_alloc; intros ? ?; cbv beta
    | apply (steps_bind (frame n0)); [|intros ?; cbv beta]
    | apply (steps_array_map (frame n0)); intros ?; cbv beta
    | apply (steps_forEach (frame n0)); intros ?; cbv beta
    | match goal with
      | |- steps (frame n0) (if ?b then _ else _) => destruct b
      | |- steps (frame n0) (match ?x with _ => _ end) => destruct x
      end ].

Lemma frame_pickProperties n : forall def keys n0,
  steps (frame n0) (pickProperties n def keys).
Proof.
  induction n as [|n IH]; intros def keys n0; cbn [pickProperties];
    step_frame n0.
Qed.

(** X6: [pickProperties] writes only to the objects it builds itself:
    whatever schema and keys it is given, every object that was in the store
    and the cache are as they were when it returns. *)
Theorem pickProperties_leaves_the_store_intact fuel def keys σ r σ' :
  pickProperties fuel def keys σ = Returned r σ' ->
  resolved σ' = resolved σ
  /\ length (heap σ) <= length (heap σ')
  /\ forall l, l < length (heap σ) -> heap σ' !! l = heap σ !! l.
Proof.
  intros H.
  destruct (frame_pickProperties fuel def keys (length (heap σ)) _ _ _ H)
    as (Hlen & Hold & Hc); [done|].
  auto.
Qed.

Lemma get_index_ref l o k σ :
  heap σ !! l = Some o ->
  get_index (VRef l) (VStr k) σ = Returned (obj_lookup k o) σ.
Proof. intros H. unfold get_index, ToPropertyKey, load, bind, ret. now rewrite H. Qed.

Lemma set_index_ref l o k x σ :
  heap σ !! l = Some o ->
  set_index (VRef l) (VStr k) x σ
  = Returned tt (mkState (resolved σ) (<[l := obj_set k x o]> (heap σ))).
Proof.
  intros H. unfold set_index, ToPropertyKey, load, store, bind, ret.
  now rewrite H.
Qed.

(** The loop of [pickProperties] on an object schema:
    [properties[k] = def.properties[k]] for every key, in order. *)
Lemma forEach_pick_index d o1 p pm R h ks : forall acc,
  h !! d = Some o1 -> obj_read "properties" o1 = VRef p ->
  h !! p = Some pm ->
  forEach (fun k => dp <- get_prop (VRef d) "properties" ;;
                    x <- get_index dp k ;;
                    set_index (VRef (length h)) k x)
    (map VStr ks) (mkState R (h ++ [acc]))
  = Returned tt
      (mkState R
         (h ++ [obj_assign acc (map (fun k => (k, obj_lookup k pm)) ks)])).
Proof.
  intros acc Hd Hprops Hp. revert acc.
  induction ks as [|k ks IH]; intros acc; [reflexivity|].
  assert (d < length h) as Hdlt by (now apply lookup_lt_Some in Hd).
  assert (p < length h) as Hplt by (now apply lookup_lt_Some in Hp).
  set (σ := mkState R (h ++ [acc])).
  assert (heap σ !! d = Some o1) as Hd'
    by (cbn; etrans; [now apply lookup_app_l|done]).
  assert (heap σ !! p = Some pm) as Hp'
    by (cbn; etrans; [now apply lookup_app_l|done]).
  assert (heap σ !! length h = Some acc) as Hacc
    by (cbn; now apply list_lookup_middle).
  assert ((dp <- get_prop (VRef d) "properties" ;;
           x <- get_index dp (VStr k) ;;
           set_index (VRef (length h)) (VStr k) x) σ
          = Returned tt
              (mkState R (h ++ [obj_set k (obj_lookup k pm) acc]))) as Hiter.
  { rewrite (bind_returned _ _ _ _ _ (get_prop_ref d o1 "properties" σ Hd')).
    rewrite Hprops.
    rewrite (bind_returned _ _ _ _ _ (get_index_ref p pm k σ Hp')).
    rewrite (set_index_ref _ _ _ _ _ Hacc). cbn. do 2 f_equal.
    rewrite insert_app_r_alt, Nat.sub_diag by lia. reflexivity. }
  cbn [map forEach]. rewrite (bind_returned _ _ _ _ _ Hiter).
  exact (IH (obj_set k (obj_lookup k pm) acc)).
Qed.

Lemma pickProperties_object n d o1 p pm req ks R h :
  h !! d = Some o1 -> h !! p = Some pm ->
  obj_read "type" o1 = VStr "object" ->
  obj_read "properties" o1 = VRef p ->
  obj_read "required" o1 = VArr req ->
  pickProperties (S n) (VRef d) (VArr (map VStr ks)) (mkState R h)
  = Returned (VRef (S (length h)))
      (mkState R
         (h ++
            [obj_assign [] (map (fun k => (k, obj_lookup k pm)) ks);
             obj_set "required"
               (VArr (List.filter (includes (map VStr ks)) req))
               (obj_set "properties" (VRef (length h)) o1)])).
Proof.
  intros Hd Hp Hty Hprops Hreq.
  assert (d < length h) as Hdlt by (now apply lookup_lt_Some in Hd).
  cbn [pickProperties].
  rewrite (bind_returned _ _ (mkState R h) _ _
             (get_prop_ref d o1 "type" (mkState R h) Hd)).
  rewrite Hty. cbn [strict_eq_str]. rewrite String.eqb_refl.
  unfold bind at 1. unfold alloc at 1. cbn [heap resolved as_array].
  unfold bind at 1. unfold ret at 1. unfold bind at 1.
  rewrite (forEach_pick_index d o1 p pm R h ks []) by done.
  set (picked := obj_assign [] (map (fun k => (k, obj_lookup k pm)) ks)).
  assert ((h ++ [picked]) !! d = Some o1) as Hd'
    by (now rewrite lookup_app_l).
  rewrite (bind_returned _ _ _ _ _
             (own_props_ref d o1 (mkState R (h ++ [picked])) Hd')).
  rewrite (bind_returned _ _ _ _ _
             (get_prop_ref d o1 "required" (mkState R (h ++ [picked])) Hd')).
  rewrite Hreq. cbn [as_array]. unfold bind, ret, alloc. cbn [heap resolved].
  rewrite length_app. cbn [length]. rewrite Nat.add_1_r.
  now rewrite <- app_assoc.
Qed.

Lemma obj_get_assign_graph (f : string -> value) k ks : forall dst,
  k ∈ ks ->
  obj_get k (obj_assign dst (map (fun k => (k, f k)) ks)) = Some (f k).
Proof.
  unfold obj_assign.
  induction ks as [|k0 ks IH]; intros dst Hk; [now apply elem_of_nil in Hk|].
  cbn. destruct (decide (k ∈ ks)) as [Hin|Hnin]; [now apply IH|].
  apply elem_of_cons in Hk as [->|?]; [|done].
  change (fold_left _ ?src ?d) with (obj_assign d src).
  rewrite obj_get_assign_None.
  - now rewrite obj_get_set, String.eqb_refl.
  - destruct (obj_get k0 _) eqn:Hg; [|done]. exfalso. apply Hnin.
    assert (k0 ∈ obj_keys (map (fun k => (k, f k)) ks)) as Hin
      by (apply obj_get_is_Some; eauto).
    unfold obj_keys in Hin. rewrite map_map in Hin. cbn in Hin.
    now rewrite map_id in Hin.
Qed.

(** X7: on an object schema, [pickProperties] with the keys [ks] returns a
    new schema whose [properties] is a new object with exactly the keys of
    [ks], each holding what [def.properties[k]] reads: the input's own
    property, or else the member of [Object.prototype] of that name, or
    else [undefined]; [required] keeps the names that are among the keys,
    in their order; every other property of the input is carried over.
    The key [__proto__] is left aside: assigned to, it is the setter of the
    prototype and defines no property. *)
Theorem pickProperties_on_object_schema n d o1 p pm req ks R h :
  h !! d = Some o1 -> h !! p = Some pm ->
  obj_read "type" o1 = VStr "object" ->
  obj_read "properties" o1 = VRef p ->
  obj_read "required" o1 = VArr req ->
  "__proto__" ∉ ks ->
  let picked := obj_assign [] (map (fun k => (k, obj_lookup k pm)) ks) in
  let result :=
    obj_set "required" (VArr (List.filter (includes (map VStr ks)) req))
      (obj_set "properties" (VRef (length h)) o1) in
  pickProperties (S n) (VRef d) (VArr (map VStr ks)) (mkState R h)
  = Returned (VRef (S (length h))) (mkState R (h ++ [picked; result]))
  /\ (forall k, is_Some (obj_get k picked) <-> k ∈ ks)
  /\ (forall k v, k ∈ ks -> obj_get k pm = Some v ->
                  obj_get k picked = Some v)
  /\ (forall k, k ∈ ks -> obj_get k pm = None ->
                obj_get k picked
                = Some (if bool_decide (In k Object_prototype)
                        then VBuiltin k else VUndef))
  /\ (forall k, k <> "required" -> k <> "properties" ->
                obj_get k result = obj_get k o1).
Proof.
  intros Hd Hp Hty Hprops Hreq _ picked result.
  split; [now apply pickProperties_object with (p := p)|].
  assert (forall k, k ∈ ks -> obj_get k picked = Some (obj_lookup k pm))
    as Hget.
  { intros k Hk. subst picked.
    exact (obj_get_assign_graph (fun k => obj_lookup k pm) k ks [] Hk). }
  split; [|split; [|split]].
  - intros k. subst picked.
    rewrite obj_get_assign_is_Some, obj_get_is_Some.
    unfold obj_keys. rewrite map_map. cbn. rewrite map_id.
    split; [intros [?|[? [=]]]; done|auto].
  - intros k v Hk Hv. rewrite (Hget k Hk). unfold obj_lookup.
    now rewrite Hv.
  - intros k Hk Hnone. rewrite (Hget k Hk). unfold obj_lookup.
    rewrite Hnone. cbn. case_bool_decide as Hin.
    + now rewrite inherited_member.
    + now rewrite inherited_own_name.
  - intros k Hr Hpr. subst result. rewrite !obj_get_set.
    destruct (String.eqb_spec k "required"); [done|].
    now destruct (String.eqb_spec k "properties").
Qed.

Lemma obj_set_id k v o : obj_get k o = Some v -> obj_set k v o = o.
Proof.
  induction o as [|[k0 v0] o IH]; cbn; [done|].
  destruct (String.eqb_spec k k0) as [->|Hne]; [now intros [= ->]|].
  intros H. now rewrite IH.
Qed.

Lemma filter_includes_idem (keys req : list value) :
  List.filter (includes keys) (List.filter (includes keys) req)
  = List.filter (includes keys) req.
Proof.
  induction req as [|x req IH]; cbn; [done|].
  destruct (includes keys x) eqn:Hx; cbn; [|done]. now rewrite Hx, IH.
Qed.

(** X8: projecting an object schema twice on the same keys gives what
    projecting it once gives: the second result has the same own properties
    as the first, except that [properties] denotes a new object, and that
    object has the content of the first one. *)
Theorem pickProperties_twice n d o1 p pm req ks R h :
  h !! d = Some o1 -> h !! p = Some pm ->
  obj_read "type" o1 = VStr "object" ->
  obj_read "properties" o1 = VRef p ->
  obj_read "required" o1 = VArr req ->
  exists picked first,
    pickProperties (S n) (VRef d) (VArr (map VStr ks)) (mkState R h)
    = Returned (VRef (S (length h))) (mkState R (h ++ [picked; first]))
    /\ pickProperties (S n) (VRef (S (length h))) (VArr (map VStr ks))
         (mkState R (h ++ [picked; first]))
       = Returned (VRef (S (S (S (length h)))))
           (mkState R
              (h ++ [picked; first; picked;
                     obj_set "properties" (VRef (S (S (length h)))) first])).
Proof.
  intros Hd Hp Hty Hprops Hreq.
  set (picked := obj_assign [] (map (fun k => (k, obj_lookup k pm)) ks)).
  set (req1 := List.filter (includes (map VStr ks)) req).
  set (first := obj_set "required" (VArr req1)
                  (obj_set "properties" (VRef (length h)) o1)).
  exists picked, first.
  split; [now apply pickProperties_object with (p := p)|].
  set (h1 := h ++ [picked; first]).
  assert (length h1 = S (S (length h))) as Hlen
    by (subst h1; rewrite length_app; cbn; lia).
  assert (h1 !! S (length h) = Some first) as Hfirst.
  { subst h1. rewrite lookup_app_r by lia.
    now replace (S (length h) - length h) with 1 by lia. }
  assert (h1 !! length h = Some picked) as Hpicked
    by (subst h1; now apply list_lookup_middle).
  assert (obj_read "type" first = VStr "object") as Hty1.
  { subst first. unfold obj_read. rewrite !obj_get_set. cbn. exact Hty. }
  assert (obj_read "properties" first = VRef (length h)) as Hprops1.
  { subst first. unfold obj_read. rewrite !obj_get_set. now cbn. }
  assert (obj_get "required" first = Some (VArr req1)) as Hreq1.
  { subst first. now rewrite obj_get_set. }
  assert (obj_assign [] (map (fun k => (k, obj_lookup k picked)) ks) = picked)
    as Hpk.
  { subst picked. f_equal. apply map_ext_in. intros k Hk. f_equal.
    unfold obj_lookup at 1.
    now rewrite (obj_get_assign_graph (fun k => obj_lookup k pm) k ks []
                   (proj2 (list_elem_of_In _ _) Hk)). }
  assert (obj_set "required"
            (VArr (List.filter (includes (map VStr ks)) req1))
            (obj_set "properties" (VRef (S (S (length h)))) first)
          = obj_set "properties" (VRef (S (S (length h)))) first) as Hres.
  { subst req1. rewrite filter_includes_idem.
    apply obj_set_id. rewrite obj_get_set. now cbn. }
  rewrite (pickProperties_object n (S (length h)) first (length h) picked
             req1 ks R h1 Hfirst Hpicked Hty1 Hprops1).
  2:{ unfold obj_read. now rewrite Hreq1. }
  rewrite Hlen, Hpk, Hres. subst h1. now rewrite <- app_assoc.
Qed.

Lemma projection_undefined n l o keys σ :
  heap σ !! l = Some o ->
  strict_eq_str (obj_read "type" o) "object" = false ->
  combinator_field o = None ->
  pickProperties (S n) (VRef l) keys σ = Returned VUndef σ
  /\ dropProperties (S n) (VRef l) keys σ = Returned VUndef σ.
Proof.
  intros Hl Hty Hf. unfold combinator_field in Hf.
  destruct (truthy (obj_read "allOf" o)) eqn:Ha; [discriminate|].
  destruct (truthy (obj_read "oneOf" o)) eqn:Hb; [discriminate|].
  destruct (truthy (obj_read "anyOf" o)) eqn:Hc; [discriminate|].
  split.
  - cbn [pickProperties].
    rewrite (bind_returned _ _ _ _ _ (get_prop_ref _ _ "type" _ Hl)), Hty.
    rewrite (bind_returned _ _ _ _ _ (get_prop_ref _ _ "allOf" _ Hl)), Ha.
    rewrite (bind_returned _ _ _ _ _ (get_prop_ref _ _ "oneOf" _ Hl)), Hb.
    rewrite (bind_returned _ _ _ _ _ (get_prop_ref _ _ "anyOf" _ Hl)), Hc.
    reflexivity.
  - cbn [dropProperties].
    rewrite (bind_returned _ _ _ _ _ (get_prop_ref _ _ "type" _ Hl)), Hty.
    rewrite (bind_returned _ _ _ _ _ (get_prop_ref _ _ "allOf" _ Hl)), Ha.
    rewrite (bind_returned _ _ _ _ _ (get_prop_ref _ _ "oneOf" _ Hl)), Hb.
    rewrite (bind_returned _ _ _ _ _ (get_prop_ref _ _ "anyOf" _ Hl)), Hc.
    reflexivity.
Qed.

(** X9: a schema that is no object schema and keeps nothing under [allOf],
    [oneOf] or [anyOf] has no projection: both functions return
    [undefined] and leave the store as it was, whatever the keys are.  So
    [Pick<T, K>] and [Omit<T, K>], when [T] derives to such a schema and [K]
    spells out keys, do not fail: they derive to a new object that holds
    the node's tags and nothing else. *)
Theorem projection_of_other_schemas_is_undefined n l o σ :
  heap σ !! l = Some o ->
  strict_eq_str (obj_read "type" o) "object" = false ->
  combinator_field o = None ->
  (forall keys,
     pickProperties (S n) (VRef l) keys σ = Returned VUndef σ
     /\ dropProperties (S n) (VRef l) keys σ = Returned VUndef σ)
  /\ (forall tags name T K rest ks σ0,
        name = "Pick" \/ name = "Omit" ->
        getTypeDefinition (S n) T σ0 = Returned (VRef l) σ ->
        key_literals K ks ->
        exists ko,
          getTypeDefinition (S (S n))
            (TypeReferenceNode tags name (Some (T :: K :: rest))) σ0
          = Returned (VRef (S (length (heap σ))))
              (mkState (resolved σ)
                 (heap σ ++ [ko; obj_assign [] (jsdocTag tags)]))).
Proof.
  intros Hl Hty Hf. split.
  - intros keys. now apply projection_undefined with (o := o).
  - intros tags name T K rest ks σ0 Hname HT HK.
    destruct (key_literals_run n K ks σ HK) as (ko & Henum & HKrun).
    exists ko.
    set (σ2 := mkState (resolved σ) (heap σ ++ [ko])) in *.
    assert (heap σ2 !! l = Some o) as Hl2.
    { cbn. etrans; [apply lookup_app_l; now apply lookup_lt_Some in Hl|done]. }
    assert (heap σ2 !! length (heap σ) = Some ko) as Hko
      by (cbn; now apply list_lookup_middle).
    destruct (projection_undefined n l o (VArr (map VStr ks)) σ2 Hl2 Hty Hf)
      as [Hpick Hdrop].
    assert (spread_literal VUndef tags σ2
            = Returned (VRef (S (length (heap σ))))
                (mkState (resolved σ)
                   (heap σ ++ [ko; obj_assign [] (jsdocTag tags)]))) as Hs.
    { unfold spread_literal, own_props, object_literal, bind, ret, alloc.
      cbn. rewrite length_app, <- app_assoc. cbn.
      now rewrite Nat.add_1_r. }
    destruct Hname as [-> | ->].
    + change (getTypeDefinition (S (S n))
                (TypeReferenceNode tags "Pick" (Some (T :: K :: rest))) σ0)
        with ((pickDef <- getTypeDefinition (S n) T ;;
               pickKeys <- getTypeDefinition (S n) K ;;
               keys <- get_prop pickKeys "enum" ;;
               picked <- pickProperties (S n) pickDef keys ;;
               spread_literal picked tags) σ0).
      rewrite (bind_returned _ _ _ _ _ HT).
      rewrite (bind_returned _ _ _ _ _ HKrun).
      rewrite (bind_returned _ _ _ _ _ (get_prop_ref _ _ "enum" _ Hko)).
      rewrite Henum, (bind_returned _ _ _ _ _ Hpick). exact Hs.
    + change (getTypeDefinition (S (S n))
                (TypeReferenceNode tags "Omit" (Some (T :: K :: rest))) σ0)
        with ((omitDef <- getTypeDefinition (S n) T ;;
               omitKeys <- getTypeDefinition (S n) K ;;
               keys <- get_prop omitKeys "enum" ;;
               dropped <- dropProperties (S n) omitDef keys ;;
               spread_literal dropped tags) σ0).
      rewrite (bind_returned _ _ _ _ _ HT).
      rewrite (bind_returned _ _ _ _ _ HKrun).
      rewrite (bind_returned _ _ _ _ _ (get_prop_ref _ _ "enum" _ Hko)).
      rewrite Henum, (bind_returned _ _ _ _ _ Hdrop). exact Hs.
Qed.

(** X10: on an object schema, a key argument that is no array (the [enum]
    of a key type that derived to no enumeration is [undefined]) makes both
    projections fail with the runtime's TypeError. *)
Theorem projection_needs_an_array_of_keys n l o keys σ :
  heap σ !! l = Some o ->
  obj_read "type" o = VStr "object" ->
  (forall ks, keys <> VArr ks) ->
  pickProperties (S n) (VRef l) keys σ = Thrown TypeError
  /\ dropProperties (S n) (VRef l) keys σ = Thrown TypeError.
Proof.
  intros Hl Hty Hkeys.
  assert (forall σ0, as_array keys σ0 = Thrown TypeError) as Harr.
  { intros σ0. destruct keys; try reflexivity. now destruct (Hkeys elems). }
  split.
  - cbn [pickProperties].
    rewrite (bind_returned _ _ _ _ _ (get_prop_ref _ _ "type" _ Hl)), Hty.
    cbn [strict_eq_str]. rewrite String.eqb_refl.
    unfold bind at 1. unfold alloc at 1.
    now rewrite (bind_thrown _ _ _ _ (Harr _)).
  - cbn [dropProperties].
    rewrite (bind_returned _ _ _ _ _ (get_prop_ref _ _ "type" _ Hl)), Hty.
    cbn [strict_eq_str]. rewrite String.eqb_refl.
    now rewrite (bind_thrown _ _ _ _ (Harr _)).
Qed.

(** ** Required *)

(** X11: [Required<T>] derives [T] and sets [required], on the object that
    derivation returned, to the names of all properties of the object under
    [properties], every name once and as [Object.keys] lists them (in the
    order of definition when none is an array index), whatever [required]
    was or was not there before; the result is a copy of that object with
    the node's tags merged on top.  Without a [properties] field the
    derivation fails with the runtime's TypeError. *)
Theorem required_lists_every_property fuel tags T rest σ v σ' :
  getTypeDefinition fuel T σ = Returned v σ' ->
  exists a o, v = VRef a /\ heap σ' !! a = Some o /\
    (forall p pm,
       obj_read "properties" o = VRef p -> heap σ' !! p = Some pm ->
       let names := own_property_keys pm in
       let o' := obj_set "required" (VArr (map VStr names)) o in
       getTypeDefinition (S fuel)
         (TypeReferenceNode tags "Required" (Some (T :: rest))) σ
       = Returned (VRef (length (heap σ')))
           (mkState (resolved σ')
              (<[a := o']> (heap σ') ++ [obj_assign o' (jsdocTag tags)]))
       /\ obj_get "required" o' = Some (VArr (map VStr names))
       /\ names ≡ₚ obj_keys pm
       /\ (Forall (fun k => array_index k = None) (obj_keys pm) ->
           names = obj_keys pm))
    /\ (obj_read "properties" o = VUndef ->
        getTypeDefinition (S fuel)
          (TypeReferenceNode tags "Required" (Some (T :: rest))) σ
        = Thrown TypeError).
Proof.
  intros H.
  destruct (fresh_result_lookup _ _ (getTypeDefinition_fresh _ _ _ _ _ H))
    as (a & o & -> & Ha).
  exists a, o. split; [done|]. split; [done|].
  assert (a < length (heap σ')) as Hlt by (now apply lookup_lt_Some in Ha).
  split.
  - intros p pm Hp Hpm names o'.
    split; [|split; [subst o'; now rewrite obj_get_set|]];
      [|split; [apply own_property_keys_perm|apply own_property_keys_plain]].
    cbn [getTypeDefinition]. unfold getTypeDefinition_body. cbn.
    rewrite (bind_returned _ _ _ _ _ H).
    rewrite (bind_returned _ _ _ _ _ (get_prop_ref a o "properties" σ' Ha)).
    rewrite Hp.
    assert (Object_keys (VRef p) σ' = Returned (VArr (map VStr names)) σ')
      as Hkeys.
    { unfold Object_keys, load, bind, ret. now rewrite Hpm. }
    rewrite (bind_returned _ _ _ _ _ Hkeys).
    assert (set_prop (VRef a) "required" (VArr (map VStr names)) σ'
            = Returned tt (mkState (resolved σ') (<[a := o']> (heap σ'))))
      as Hset.
    { unfold set_prop, load, store, bind. now rewrite Ha. }
    rewrite (bind_returned _ _ _ _ _ Hset).
    rewrite (spread_literal_ref a o'); cbn.
    + now rewrite length_insert.
    + now apply list_lookup_insert_eq.
  - intros Hp.
    cbn [getTypeDefinition]. unfold getTypeDefinition_body. cbn.
    rewrite (bind_returned _ _ _ _ _ H).
    rewrite (bind_returned _ _ _ _ _ (get_prop_ref a o "properties" σ' Ha)).
    now rewrite Hp.
Qed.

(** ** The type comparison *)

(** X12: [isSameType] is an equivalence on semantic types. *)
Theorem isSameType_is_an_equivalence :
  (forall a : tsType, isSameType a a = true)
  /\ (forall a b : tsType, isSameType a b = isSameType b a)
  /\ (forall a b c : tsType,
        isSameType a b = true -> isSameType b c = true ->
        isSameType a c = true).
Proof.
  split; [|split].
  - intros a. now apply isSameType_spec.
  - intros a b. destruct (isSameType a b) eqn:Hab.
    + symmetry. apply isSameType_spec. apply isSameType_spec in Hab.
      destruct Hab. split; congruence.
    + destruct (isSameType b a) eqn:Hba; [|done].
      apply isSameType_spec in Hba. destruct Hba as [Hf Hs].
      assert (isSameType a b = true) as Hab'
        by (apply isSameType_spec; split; congruence).
      congruence.
  - intros a b c Hab Hbc. apply isSameType_spec in Hab, Hbc.
    apply isSameType_spec. destruct Hab, Hbc. split; congruence.
Qed.

(** ** The driver *)

Lemma extends_driver fuel keys : steps extends (driver fuel keys).
Proof.
  unfold driver. apply (steps_array_map extends). intros k.
  apply extends_resolve.
Qed.

Lemma driver_cons fuel k keys σ :
  driver fuel (k :: keys) σ
  = (v <- resolve fuel k ;; vs <- driver fuel keys ;; ret (v :: vs)) σ.
Proof. reflexivity. Qed.

Lemma driver_cached fuel keys : forall σ vs σ',
  driver fuel keys σ = Returned vs σ' ->
  Forall2 (fun k v =>
             truthy v = true /\ map_lookup (resolved σ') k = v
             /\ (~ In k Object_prototype -> resolved σ' !! k = Some v))
    keys vs.
Proof.
  induction keys as [|k keys IH]; intros σ vs σ' H.
  - injection H as <- _. constructor.
  - rewrite driver_cons in H.
    apply bind_inv in H as (v & σ1 & Hv & H).
    apply bind_inv in H as (vs' & σ2 & Hvs & H).
    injection H as <- <-.
    constructor; [|now apply (IH σ1)].
    destruct (extends_driver _ _ _ _ _ Hvs) as [_ Hkeep].
    destruct (resolve_returned_cached _ _ _ _ _ Hv)
      as [Ht [Hc|(Hc & -> & -> & Hi)]].
    + assert (resolved σ2 !! k = Some v) as Hc2.
      { rewrite Hkeep; [done|]. unfold map_lookup. now rewrite Hc. }
      split; [done|]. split; [|done]. unfold map_lookup. now rewrite Hc2.
    + assert (resolved σ2 !! k = None) as Hc2.
      { rewrite Hkeep; [done|]. unfold map_lookup. now rewrite Hc. }
      split; [done|]. split.
      * unfold map_lookup. rewrite Hc2. cbn.
        destruct (inherited_cases k) as [[_ H]|[-> _]]; [congruence|done].
      * intros Hn. rewrite (inherited_own_name _ Hn) in Hi. discriminate.
Qed.

Lemma driver_app fuel before after σ :
  driver fuel (before ++ after) σ
  = (vs <- driver fuel before ;; ws <- driver fuel after ;; ret (vs ++ ws)) σ.
Proof.
  revert σ. induction before as [|k before IH]; intros σ.
  - cbn [app]. unfold driver at 2. cbn [array_map]. unfold bind at 1, ret at 1.
    unfold bind, ret. now destruct (driver fuel after σ).
  - cbn [app]. rewrite driver_cons. unfold bind.
    rewrite (driver_cons fuel k before σ). unfold bind.
    destruct (resolve fuel k σ) as [v σ1| | |]; try done.
    rewrite IH. unfold bind, ret.
    destruct (driver fuel before σ1) as [vs σ2| | |]; try done.
    now destruct (driver fuel after σ2).
Qed.

(** X13: when the driver's loop completes, it has one value for every name
    it went through, a truthy one, and that value is what [resolved[name]]
    reads afterwards; for a name that is not the name of a member of
    [Object.prototype], it is the cache's own entry under the name.  And
    when [resolve] fails for one name, the loop fails there with the same
    failure: the names after it are never resolved. *)
Theorem driver_fills_the_cache_or_stops fuel σ :
  (forall keys vs σ',
     driver fuel keys σ = Returned vs σ' ->
     length vs = length keys
     /\ Forall2 (fun k v =>
                   truthy v = true /\ map_lookup (resolved σ') k = v
                   /\ (~ In k Object_prototype ->
                       resolved σ' !! k = Some v))
          keys vs)
  /\
  (forall before k after vs σ1 e,
     driver fuel before σ = Returned vs σ1 ->
     resolve fuel k σ1 = Thrown e ->
     driver fuel (before ++ k :: after) σ = Thrown e).
Proof.
  split.
  - intros keys vs σ' H. split; [|now apply (driver_cached fuel keys σ)].
    exact (array_map_length _ _ _ _ _ H).
  - intros before k after vs σ1 e Hb Hk.
    rewrite driver_app, (bind_returned _ _ _ _ _ Hb).
    apply bind_thrown. rewrite driver_cons. now apply bind_thrown.
Qed.

(** ** Record *)





(** ** What a derivation without [Omit] leaves alone *)

#[local] Instance unchanged_below_preorder n0 : PreOrder (unchanged_below n0).
Proof.
  split.
  - intros σ H. auto.
  - intros σ1 σ2 σ3 H12 H23 H.
    destruct (H12 H) as (H2 & Hold2).
    destruct (H23 H2) as (H3 & Hold3).
    split; [done|]. intros l Hl. rewrite Hold3 by done. auto.
Qed.

Lemma unchanged_frame {A} n0 (m : M A) :
  steps (frame n0) m -> steps (unchanged_below n0) m.
Proof.
  intros Hm σ a σ' H Hpre. destruct (Hm _ _ _ H Hpre) as (? & ? & _). auto.
Qed.

Lemma unchanged_alloc n0 o : steps (unchanged_below n0) (alloc o).
Proof. apply unchanged_frame, frame_alloc. Qed.

Lemma unchanged_store n0 l o :
  n0 <= l -> steps (unchanged_below n0) (store l o).
Proof. intros Hl. now apply unchanged_frame, frame_store. Qed.

Lemma unchanged_stateless {A} n0 (m : M A) :
  stateless m -> steps (unchanged_below n0) m.
Proof. apply (steps_stateless (unchanged_below n0)). Qed.

Lemma unchanged_set_prop n0 l k x :
  n0 <= l -> steps (unchanged_below n0) (set_prop (VRef l) k x).
Proof.
  intros Hl. cbn. apply (steps_bind (unchanged_below n0)).
  - apply unchanged_stateless, stateless_load.
  - intros o. now apply unchanged_store.
Qed.

Lemma unchanged_delete_prop n0 l k :
  n0 <= l -> steps (unchanged_below n0) (delete_prop (VRef l) k).
Proof.
  intros Hl. cbn. apply (steps_bind (unchanged_below n0)).
  - apply unchanged_stateless, stateless_load.
  - intros o. now apply unchanged_store.
Qed.

Lemma unchanged_set_index n0 l p x :
  n0 <= l -> steps (unchanged_below n0) (set_index (VRef l) p x).
Proof. intros Hl. now apply unchanged_frame, frame_set_index. Qed.

Lemma unchanged_spread_literal n0 def tags :
  steps (unchanged_below n0) (spread_literal def tags).
Proof.
  unfold spread_literal, object_literal.
  apply (steps_bind (unchanged_below n0)).
  - apply unchanged_stateless, stateless_own_props.
  - intros o. apply unchanged_alloc.
Qed.

Lemma unchanged_resolve_with n0 (d : TypeNode -> M value) name :
  (forall body, decls !! name = Some body ->
                steps (unchanged_below n0) (d body)) ->
  steps (unchanged_below n0) (resolve_with d name).
Proof.
  intros Hd σ a σ' H. unfold resolve_with in H.
  destruct (truthy (map_lookup _ _)); [injection H as _ <-; reflexivity|].
  destruct (decls !! name) as [body|] eqn:Hb;
    [|destruct (truthy (inherited name)); discriminate].
  apply bind_inv in H as (v & σ1 & Hv & H). injection H as _ <-.
  intros Hpre. destruct (Hd body eq_refl _ _ _ Hv Hpre) as [Hlen Hold].
  cbn. auto.
Qed.

(** The value bound is an address no older than the store. *)
Lemma unchanged_bind_new {A B} n0 (m : M A) (f : A -> value)
    (k : A -> M B) :
  steps (unchanged_below n0) m -> returns_new m f ->
  (forall a l, f a = VRef l -> n0 <= l ->
               steps (unchanged_below n0) (k a)) ->
  steps (unchanged_below n0) (bind m k).
Proof.
  intros Hm Hnew Hk σ b σ' H Hpre.
  apply bind_inv in H as (a & σ1 & H1 & H2).
  destruct (Hnew _ _ _ H1) as (l & Hl & Hle).
  destruct (Hm _ _ _ H1 Hpre) as [Hlen1 Hold1].
  destruct (Hk a l Hl ltac:(lia) _ _ _ H2 Hlen1) as [Hlen2 Hold2].
  split; [done|]. intros l' Hl'. rewrite Hold2 by done. auto.
Qed.

Lemma returns_new_alloc o : returns_new (alloc o) id.
Proof. intros σ a σ' [= <- _]. eauto. Qed.

Section OmitFree.
Context (d : TypeNode -> M value) (n0 : nat).
Hypothesis d_unchanged :
  forall t, omit_free t = true -> steps (unchanged_below n0) (d t).
Hypothesis d_new : forall t, returns_new (d t) id.

Let derive_opt (o : option TypeNode) : M value :=
  match o with
  | Some t' => d t'
  | None => throw TypeError
  end.

Let derive_arg (args : option (list TypeNode)) (i : nat) : M value :=
  match args with
  | Some l => derive_opt (l !! i)
  | None => throw TypeError
  end.

Lemma omit_free_lookup l i t :
  forallb omit_free l = true -> l !! i = Some t -> omit_free t = true.
Proof.
  intros Hall Hi. rewrite forallb_forall in Hall. apply Hall.
  apply list_elem_of_In. eapply list_elem_of_lookup_2. exact Hi.
Qed.

Lemma unchanged_derive_arg args i :
  match args with Some l => forallb omit_free l | None => true end = true ->
  steps (unchanged_below n0) (derive_arg args i).
Proof.
  intros Hfree. unfold derive_arg, derive_opt.
  destruct args as [l|]; [|apply unchanged_stateless, stateless_throw].
  destruct (l !! i) as [t|] eqn:Hi;
    [|apply unchanged_stateless, stateless_throw].
  apply d_unchanged. eapply omit_free_lookup; eassumption.
Qed.

Lemma returns_new_derive_arg args i : returns_new (derive_arg args i) id.
Proof.
  unfold derive_arg, derive_opt.
  destruct args as [l|]; [|intros σ a σ' [=]].
  destruct (l !! i) as [t|]; [apply d_new|intros σ a σ' [=]].
Qed.

Lemma unchanged_array_map_derive ts :
  forallb omit_free ts = true ->
  steps (unchanged_below n0) (array_map d ts).
Proof.
  induction ts as [|t ts IH]; cbn; intros Hfree.
  - apply unchanged_stateless, stateless_ret.
  - apply andb_true_iff in Hfree as [Ht Hts].
    apply (steps_bind (unchanged_below n0)); [now apply d_unchanged|].
    intros b. apply (steps_bind (unchanged_below n0)); [now apply IH|].
    intros bs. apply unchanged_stateless, stateless_ret.
Qed.

Lemma unchanged_derive_members members : forall acc,
  forallb (fun m => match m with
                    | PropertySignature _ _ (Some ty) => omit_free ty
                    | _ => true
                    end) members = true ->
  steps (unchanged_below n0)
    (derive_members derive_opt (property_signatures members) acc).
Proof.
  induction members as [|[name q ty|] members IH]; intros acc Hfree.
  - apply unchanged_stateless, stateless_ret.
  - cbn in Hfree. apply andb_true_iff in Hfree as [Ht Hms].
    change (property_signatures (PropertySignature name q ty :: members))
      with ((name, q, ty) :: property_signatures members).
    cbn [derive_members]. apply (steps_bind (unchanged_below n0)).
    + destruct ty as [ty|]; cbn;
        [now apply d_unchanged|apply unchanged_stateless, stateless_throw].
    + intros v. now apply IH.
  - cbn in Hfree. exact (IH acc Hfree).
Qed.

Ltac unchanged :=
  repeat first
    [ match goal with
      | H : n0 <= ?l |- steps _ (set_prop (VRef ?l) _ _) =>
          apply (unchanged_set_prop n0 l _ _ H)
      | H : n0 <= ?l |- steps _ (delete_prop (VRef ?l) _) =>
          apply (unchanged_delete_prop n0 l _ H)
      | H : n0 <= ?l |- steps _ (set_index (VRef ?l) _ _) =>
          apply (unchanged_set_index n0 l _ _ H)
      | H : forall a b, steps _ (?p a b) |- steps _ (?p _ _) => apply H
      end
    | apply unchanged_alloc
    | apply unchanged_spread_literal
    | apply unchanged_stateless;
        solve [ auto using stateless_ret, stateless_throw,
                  stateless_unmodelled, stateless_out_of_fuel,
                  stateless_load, stateless_get_prop, stateless_own_props,
                  stateless_Object_keys, stateless_as_array,
                  stateless_ToPropertyKey, stateless_get_index ]
    | apply (steps_forEach (unchanged_below n0)); intros ?; cbv beta
    | match goal with
      | |- steps _ (if ?b then _ else _) => destruct b
      end ].

Ltac bind_arg :=
  apply (unchanged_bind_new n0 (derive_arg _ _) id);
    [ apply unchanged_derive_arg; assumption
    | apply returns_new_derive_arg
    | let H := fresh in intros ? ? H ?; unfold id in H; subst ].

Ltac bind_any :=
  apply (steps_bind (unchanged_below n0)); [unchanged|intros ?; cbv beta].

Lemma unchanged_getTypeDefinition_body
    (p q : value -> value -> M value) t :
  (forall a b, steps (unchanged_below n0) (p a b)) ->
  (forall name body, decls !! name = Some body -> omit_free body = true) ->
  omit_free t = true ->
  steps (unchanged_below n0) (getTypeDefinition_body d p q t).
Proof.
  intros Hp Htable Hfree. unfold getTypeDefinition_body.
  fold derive_opt. fold derive_arg.
  destruct t as [tags k|tags ms|tags el|tags name args|tags lit|tags ts
                |tags ts|tags op ty|tags c e tt ff|tags]; cbn in Hfree.
  - destruct k; unfold object_literal; unchanged.
  - apply (steps_bind (unchanged_below n0));
      [now apply unchanged_derive_members|].
    intros props. bind_any. unfold object_literal. unchanged.
  - apply (steps_bind (unchanged_below n0)); [now apply d_unchanged|].
    intros items. unfold object_literal. unchanged.
  - apply andb_true_iff in Hfree as [Hname Hargs].
    destruct (operator_of name) as [[]|] eqn:Hop.
    + bind_arg. unfold object_literal. unchanged.
    + bind_arg. bind_any. unchanged.
    + bind_arg. bind_any. bind_any. bind_any. unchanged.
    + bind_arg. unchanged.
    + bind_arg. bind_arg. bind_any. bind_any. unchanged.
    + bind_arg. bind_any. bind_arg.
      apply (unchanged_bind_new n0 (alloc []) id);
        [apply unchanged_alloc|apply returns_new_alloc|].
      intros ? ? Hid ?. unfold id in Hid. subst. bind_any. bind_any.
      * bind_any. bind_any. unchanged.
      * unfold object_literal. unchanged.
    + bind_arg. unchanged.
    + bind_arg. unchanged.
    + exfalso. unfold operator_of in Hop.
      repeat match type of Hop with
             | (if ?b then _ else _) = _ => destruct b eqn:?; try discriminate
             end.
    + unfold object_literal. unchanged.
    + unfold object_literal. unchanged.
    + destruct args; [unchanged|].
      apply (steps_bind (unchanged_below n0)); [|intros ?; unchanged].
      apply unchanged_resolve_with. intros body Hb.
      apply d_unchanged. eauto.
  - destruct lit; unfold object_literal; unchanged.
  - assert (steps (unchanged_below n0)
              (alternatives <- array_map d ts ;;
               object_literal [("oneOf", VArr alternatives)] tags)) as HoneOf.
    { apply (steps_bind (unchanged_below n0));
        [now apply unchanged_array_map_derive|].
      intros ?. unfold object_literal. unchanged. }
    cbv zeta. repeat case_match; try exact HoneOf;
      unfold object_literal; unchanged.
  - apply (steps_bind (unchanged_below n0));
      [now apply unchanged_array_map_derive|].
    intros ?. unfold object_literal. unchanged.
  - destruct op; [|unchanged..].
    apply (steps_bind (unchanged_below n0)); [now apply d_unchanged|].
    intros arg. bind_any. bind_any. unfold object_literal. unchanged.
  - apply andb_true_iff in Hfree as [Htt Hff]. cbv zeta.
    repeat case_match; [unchanged|..];
      (apply (steps_bind (unchanged_below n0));
       [now apply d_unchanged|intros ?; unchanged]).
  - unchanged.
Qed.

End OmitFree.

Lemma returns_new_getTypeDefinition n t :
  returns_new (getTypeDefinition n t) id.
Proof.
  intros σ a σ' H.
  destruct (yields_getTypeDefinition n t _ _ _ H) as (h & fs & _ & -> & Hle).
  eauto.
Qed.

Lemma unchanged_getTypeDefinition n : forall t n0,
  (forall name body, decls !! name = Some body -> omit_free body = true) ->
  omit_free t = true ->
  steps (unchanged_below n0) (getTypeDefinition n t).
Proof.
  induction n as [|n IH]; intros t n0 Htable Hfree; cbn [getTypeDefinition].
  - apply unchanged_stateless, stateless_out_of_fuel.
  - apply unchanged_getTypeDefinition_body; auto.
    + intros t'. apply returns_new_getTypeDefinition.
    + intros a b. apply unchanged_frame, frame_pickProperties.
Qed.

(** X15: of all the operators, only [Omit] writes to objects that were
    there before.  When no declaration's body and no node of the type
    applies [Omit], a derivation, and a [resolve], leave every object that
    was in the store exactly as it was: in particular the schemas the cache
    refers to. *)
Theorem without_Omit_stored_objects_are_intact fuel σ v σ' :
  (forall name body, decls !! name = Some body -> omit_free body = true) ->
  ((exists t, omit_free t = true /\
              getTypeDefinition fuel t σ = Returned v σ')
   \/ (exists name, resolve fuel name σ = Returned v σ')) ->
  forall l, l < length (heap σ) -> heap σ' !! l = heap σ !! l.
Proof.
  intros Htable Hrun.
  assert (unchanged_below (length (heap σ)) σ σ') as H.
  { destruct Hrun as [(t & Hfree & H)|(name & H)].
    - exact (unchanged_getTypeDefinition fuel t _ Htable Hfree _ _ _ H).
    - refine (unchanged_resolve_with _ _ name _ _ _ _ H).
      intros body Hb. apply unchanged_getTypeDefinition; eauto. }
  destruct H as [_ H]; [done|]. exact H.
Qed.

(** ** Intersections *)

Lemma array_map_derive_new n ts : forall σ rs σ',
  array_map (getTypeDefinition n) ts σ = Returned rs σ' ->
  length (heap σ) <= length (heap σ')
  /\ exists ls, rs = map VRef ls /\ derived_in_turn n ts σ ls σ'
       /\ NoDup ls
       /\ Forall (fun x => length (heap σ) <= x < length (heap σ')) ls.
Proof.
  induction ts as [|t ts IH]; intros σ rs σ' H.
  - injection H as <- <-. split; [done|]. exists [].
    repeat split; constructor.
  - cbn [array_map] in H.
    apply bind_inv in H as (v & σ1 & Hv & H).
    apply bind_inv in H as (vs & σ2 & Hvs & H). injection H as <- <-.
    destruct (yields_getTypeDefinition n t _ _ _ Hv)
      as (h & fs & Hh & -> & Hle).
    destruct (IH _ _ _ Hvs) as (Hle' & ls & -> & Hturn & Hnd & Hall).
    assert (length h < length (heap σ1)) as Hlt
      by (rewrite Hh, length_app; cbn; lia).
    split; [lia|]. exists (length h :: ls). split; [done|]. split; [|split].
    + cbn. eauto.
    + constructor; [|done]. intros Hin.
      rewrite Forall_forall in Hall. apply Hall in Hin. lia.
    + constructor; [lia|]. eapply Forall_impl; [exact Hall|].
      cbn. intros x Hx. lia.
Qed.

Lemma derived_in_turn_run n ts : forall σ ls σ',
  derived_in_turn n ts σ ls σ' ->
  array_map (getTypeDefinition n) ts σ = Returned (map VRef ls) σ'.
Proof.
  induction ts as [|t ts IH]; intros σ [|l ls] σ'; cbn; try done.
  - now intros ->.
  - intros (σ1 & Ht & Hts).
    rewrite (bind_returned _ _ _ _ _ Ht).
    now rewrite (bind_returned _ _ _ _ _ (IH _ _ _ Hts)).
Qed.

(** X16: an intersection derives its members one after the other, from left
    to right, each in the store the one before it left, and returns a new
    object whose [allOf] lists what these derivations returned, in the same
    order: one address per member, all different (also when a member type
    is written twice) and all of objects built during this derivation,
    before the result.  Conversely, member derivations that return one
    after the other make the intersection return in this way. *)
Theorem intersection_members_are_separate_objects fuel tags ts σ :
  (forall v σ',
     getTypeDefinition (S fuel) (IntersectionTypeNode tags ts) σ
     = Returned v σ' ->
     exists ls σ1,
       derived_in_turn fuel ts σ ls σ1
       /\ v = VRef (length (heap σ1))
       /\ σ' = mkState (resolved σ1)
                 (heap σ1 ++
                    [obj_assign [("allOf", VArr (map VRef ls))]
                       (jsdocTag tags)])
       /\ length ls = length ts /\ NoDup ls
       /\ Forall (fun x => length (heap σ) <= x < length (heap σ1)) ls)
  /\
  (forall ls σ1,
     derived_in_turn fuel ts σ ls σ1 ->
     getTypeDefinition (S fuel) (IntersectionTypeNode tags ts) σ
     = Returned (VRef (length (heap σ1)))
         (mkState (resolved σ1)
            (heap σ1 ++
               [obj_assign [("allOf", VArr (map VRef ls))]
                  (jsdocTag tags)]))).
Proof.
  split.
  - intros v σ' H.
    cbn [getTypeDefinition] in H. unfold getTypeDefinition_body in H.
    apply bind_inv in H as (rs & σ1 & Hrs & H).
    injection H as <- <-.
    destruct (array_map_derive_new _ _ _ _ _ Hrs)
      as (_ & ls & -> & Hturn & Hnd & Hall).
    exists ls, σ1. repeat split; try done.
    apply array_map_length in Hrs. now rewrite length_map in Hrs.
  - intros ls σ1 Hturn.
    cbn [getTypeDefinition]. unfold getTypeDefinition_body.
    now rewrite (bind_returned _ _ _ _ _ (derived_in_turn_run _ _ _ _ _ Hturn)).
Qed.

End Coverage.

(** * The properties at explicit inputs *)

#[local] Existing Instance demo_env.

(** C1 at a source file that declares [type constructor = string]: the
    name is declared and not cached, yet [resolve], and the loop over the
    declared names, return the member of [Object.prototype] and neither
    derive nor store anything.  And at the undeclared name [toString]:
    [resolve] does not fail, and a reference to it derives to an empty
    schema. *)
Lemma constructor_alias_is_never_derived :
  (@decls constructor_env !! "constructor" = Some (keyword StringKeyword)
   /\ resolved empty_state !! "constructor" = None)
  /\ @resolve constructor_env 1 "constructor" empty_state
     = Returned (VBuiltin "constructor") empty_state
  /\ @driver constructor_env 1 ["constructor"] empty_state
     = Returned [VBuiltin "constructor"] empty_state
  /\ (@decls demo_env !! "toString" = None
      /\ resolve 1 "toString" empty_state
         = Returned (VBuiltin "toString") empty_state
      /\ getTypeDefinition 2 (reference "toString") empty_state
         = Returned (VRef 0) (mkState ∅ [[]])).
Proof.
  assert (In "constructor" Object_prototype) as Hc by (now left).
  assert (In "toString" Object_prototype) as Ht
    by (cbn; do 8 right; now left).
  destruct (@resolve_answers_prototype_names constructor_env 1 "constructor"
              empty_state Hc eq_refl) as [Hres _].
  destruct (resolve_answers_prototype_names 1 "toString" empty_state
              Ht eq_refl) as [Hres' Href].
  split; [split; reflexivity|]. split; [exact Hres|]. split.
  - unfold driver. cbn [array_map].
    now rewrite (bind_returned _ _ _ _ _ Hres).
  - split; [reflexivity|]. split; [exact Hres'|].
    exact (Href eq_refl []).
Defined.

(** C2 at [string extends string ? string : number] (the true branch),
    [string extends number ? string : number] (the false branch) and
    [string extends string ? string : string] (refused). *)
Lemma conditional_branch_selection_witness :
  let s := keyword StringKeyword in
  let n := keyword NumberKeyword in
  getTypeDefinition 2 (ConditionalTypeNode [] s s s n) empty_state
  = Returned (VRef 1)
      (mkState ∅ [[("type", VStr "string")]; [("type", VStr "string")]])
  /\ getTypeDefinition 2 (ConditionalTypeNode [] s n s n) empty_state
     = Returned (VRef 1)
         (mkState ∅ [[("type", VStr "number")]; [("type", VStr "number")]])
  /\ getTypeDefinition 2 (ConditionalTypeNode [] s s s s) empty_state
     = Thrown BadConditional.
Proof.
  intros s n. split; [|split].
  - destruct (conditional_branch_selection 1 [] s s s n empty_state)
      as (_ & _ & Htrue & _).
    rewrite (Htrue eq_refl eq_refl). reflexivity.
  - destruct (conditional_branch_selection 1 [] s n s n empty_state)
      as (_ & _ & _ & Hfalse).
    rewrite (Hfalse eq_refl eq_refl). reflexivity.
  - destruct (conditional_branch_selection 1 [] s s s s empty_state)
      as (_ & Hsame & _).
    exact (Hsame eq_refl).
Defined.

(** C3 at [{oneOf: [<object schema>, {type: "string"}]}] and the key [a]:
    both children are projected (the second has no projection and yields
    [undefined]) and come back under [allOf], next to the [oneOf] they were
    read from. *)
Lemma projections_distribute_witness :
  let σ := mkState ∅ demo_heap_oneOf in
  let o := [("oneOf", VArr [VRef 2; VRef 0])] in
  (heap σ !! 3 = Some o
   /\ strict_eq_str (obj_read "type" o) "object" = false
   /\ combinator_field o = Some "oneOf"
   /\ obj_read "oneOf" o = VArr [VRef 2; VRef 0])
  /\ pickProperties 2 (VRef 3) (VArr [VStr "a"]) σ
     = Returned (VRef 6)
         (mkState ∅
            (demo_heap_oneOf ++
               [[("a", VRef 0)];
                [("type", VStr "object"); ("properties", VRef 4);
                 ("required", VArr [VStr "a"])];
                [("oneOf", VArr [VRef 2; VRef 0]);
                 ("allOf", VArr [VRef 5; VUndef])]]))
  /\ dropProperties 2 (VRef 3) (VArr [VStr "a"]) σ
     = Returned (VRef 5)
         (mkState ∅
            [[("type", VStr "string")];
             [("b", VRef 0)];
             [("type", VStr "object"); ("properties", VRef 1);
              ("required", VArr [VStr "a"; VStr "b"])];
             [("oneOf", VArr [VRef 2; VRef 0])];
             [("type", VStr "object"); ("properties", VRef 1);
              ("required", VArr [VStr "b"])];
             [("oneOf", VArr [VRef 2; VRef 0]);
              ("allOf", VArr [VRef 4; VUndef])]]).
Proof.
  intros σ o. split; [repeat split|].
  destruct (projections_distribute_as_allOf 1 3 o "oneOf" [VRef 2; VRef 0]
              (VArr [VStr "a"]) σ eq_refl eq_refl eq_refl eq_refl)
    as (Hpick & Hdrop & _).
  split.
  - destruct (Hpick [VRef 5; VUndef]
                (mkState ∅
                   (demo_heap_oneOf ++
                      [[("a", VRef 0)];
                       [("type", VStr "object"); ("properties", VRef 4);
                        ("required", VArr [VStr "a"])]])) eq_refl)
      as (Hrun & _ & _).
    exact Hrun.
  - destruct (Hdrop [VRef 4; VUndef]
                (mkState ∅
                   [[("type", VStr "string")];
                    [("b", VRef 0)];
                    [("type", VStr "object"); ("properties", VRef 1);
                     ("required", VArr [VStr "a"; VStr "b"])];
                    [("oneOf", VArr [VRef 2; VRef 0])];
                    [("type", VStr "object"); ("properties", VRef 1);
                     ("required", VArr [VStr "b"])]]) eq_refl)
      as (Hrun & _ & _).
    exact Hrun.
Defined.

(** C4 at the members of [{ a: string, b?: number }]. *)
Lemma type_literal_schema_witness :
  let members :=
    [PropertySignature "a" false (Some (keyword StringKeyword));
     PropertySignature "b" true (Some (keyword NumberKeyword))] in
  array_map
    (fun s => match snd s with
              | Some t => getTypeDefinition 1 t
              | None => throw TypeError
              end) (property_signatures members) empty_state
  = Returned [VRef 0; VRef 1]
      (mkState ∅ [[("type", VStr "string")]; [("type", VStr "number")]])
  /\ getTypeDefinition 2 (TypeLiteralNode [] members) empty_state
     = Returned (VRef 3) (mkState ∅ demo_heap_A).
Proof.
  intros members. split; [reflexivity|].
  destruct (type_literal_schema 1 [] members empty_state [VRef 0; VRef 1]
              (mkState ∅ [[("type", VStr "string")];
                          [("type", VStr "number")]]) eq_refl)
    as (Hrun & _).
  exact Hrun.
Defined.

(** C5 at ["a" | "b"], [1 | 2] and ["a" | number]. *)
Lemma union_enum_or_oneOf_witness :
  getTypeDefinition 1
    (UnionTypeNode [] [string_literal_type "a"; string_literal_type "b"])
    empty_state
  = Returned (VRef 0) (mkState ∅ [[("enum", VArr [VStr "a"; VStr "b"])]])
  /\ getTypeDefinition 1
       (UnionTypeNode []
          [LiteralTypeNode [] (NumericLiteral "1");
           LiteralTypeNode [] (NumericLiteral "2")])
       empty_state
     = Returned (VRef 0)
         (mkState ∅
            [[("enum", VArr [VNum (unary_plus "1"); VNum (unary_plus "2")])]])
  /\ getTypeDefinition 2
       (UnionTypeNode [] [string_literal_type "a"; keyword NumberKeyword])
       empty_state
     = Returned (VRef 2)
         (mkState ∅
            [[("enum", VArr [VStr "a"])]; [("type", VStr "number")];
             [("oneOf", VArr [VRef 0; VRef 1])]]).
Proof.
  split; [|split].
  - apply (proj1 (union_enum_or_oneOf 0 [] _ empty_state) ["a"; "b"]).
    repeat constructor; now exists [].
  - apply (proj1 (proj2 (union_enum_or_oneOf 0 [] _ empty_state)) ["1"; "2"]).
    repeat constructor; now exists [].
  - destruct (union_enum_or_oneOf 1 []
                [string_literal_type "a"; keyword NumberKeyword] empty_state)
      as (_ & _ & HoneOf & Hmixed).
    destruct (Hmixed (or_introl eq_refl)) as [Hs Hn].
    rewrite (HoneOf Hs Hn). reflexivity.
Defined.

(** C6 at [Foo<string>]. *)
Lemma unrecognised_generic_reference_witness :
  operator_of "Foo" = None
  /\ getTypeDefinition 1 (generic "Foo" [keyword StringKeyword]) empty_state
     = Thrown UnsupportedNode.
Proof.
  split; [reflexivity|].
  apply (unrecognised_generic_reference_throws 0 [] "Foo"
           [keyword StringKeyword] empty_state).
  reflexivity.
Defined.

(** [Foo<string>] does not come back with nothing: it fails. *)
Lemma generic_reference_is_not_silent :
  getTypeDefinition 1 (generic "Foo" [keyword StringKeyword]) empty_state
  = Thrown UnsupportedNode
  /\ ~ (exists σ',
          getTypeDefinition 1 (generic "Foo" [keyword StringKeyword])
            empty_state
          = Returned VUndef σ').
Proof.
  split; [reflexivity|]. intros [σ' H]. discriminate H.
Qed.

(** C7 at [keyof { a: string, b?: number }], at
    [keyof { b: string, 1: number }], whose second name is an array index,
    and at [keyof string]. *)
Lemma keyof_enumerates_properties_witness :
  getTypeDefinition 3 (TypeOperatorNode [] KeyOfKeyword demo_A) empty_state
  = Returned (VRef 4)
      (mkState ∅ (demo_heap_A ++ [[("enum", VArr [VStr "a"; VStr "b"])]]))
  /\ (exists σ',
        getTypeDefinition 3
          (TypeOperatorNode [] KeyOfKeyword
             (TypeLiteralNode []
                [PropertySignature "b" false (Some (keyword StringKeyword));
                 PropertySignature "1" false (Some (keyword NumberKeyword))]))
          empty_state
        = Returned (VRef 4) σ'
        /\ heap σ' !! 4 = Some [("enum", VArr [VStr "1"; VStr "b"])])
  /\ getTypeDefinition 2
       (TypeOperatorNode [] KeyOfKeyword (keyword StringKeyword)) empty_state
     = Thrown TypeError.
Proof.
  split; [|split].
  - destruct (keyof_enumerates_properties 2 [] demo_A empty_state (VRef 3)
                (mkState ∅ demo_heap_A) eq_refl)
      as (a & o & Ha & Ho & Hkeys & _).
    injection Ha as <-. injection Ho as <-.
    exact (proj1 (Hkeys 2 [("a", VRef 0); ("b", VRef 1)] eq_refl eq_refl)).
  - destruct (keyof_enumerates_properties 2 []
                (TypeLiteralNode []
                   [PropertySignature "b" false
                      (Some (keyword StringKeyword));
                    PropertySignature "1" false
                      (Some (keyword NumberKeyword))])
                empty_state _ _ eq_refl)
      as (a & o & Ha & Ho & Hkeys & _).
    injection Ha as <-. injection Ho as <-.
    destruct (Hkeys 2 [("b", VRef 0); ("1", VRef 1)] eq_refl eq_refl)
      as [Hrun _].
    eexists. split; [exact Hrun|reflexivity].
  - destruct (keyof_enumerates_properties 1 [] (keyword StringKeyword)
                empty_state (VRef 0) (mkState ∅ [[("type", VStr "string")]])
                eq_refl)
      as (a & o & Ha & Ho & _ & Hnone).
    injection Ha as <-. injection Ho as <-.
    exact (Hnone eq_refl).
Defined.

(** C8 at [Omit<A, "a">] and [Partial<A>], with [A] already resolved. *)
Lemma operators_over_cached_declaration_witness :
  let oA :=
    [("type", VStr "object"); ("properties", VRef 2);
     ("required", VArr [VStr "a"])] in
  (operator_of "A" = None
   /\ resolved demo_state_A !! "A" = Some (VRef 3)
   /\ heap demo_state_A !! 3 = Some oA
   /\ key_literals (string_literal_type "a") ["a"])
  /\ (exists r σ',
        getTypeDefinition 2
          (generic "Omit" [reference "A"; string_literal_type "a"])
          demo_state_A = Returned r σ'
        /\ heap σ' !! 3 = Some oA
        /\ heap σ' !! 2 = Some [("b", VRef 1)]
        /\ resolve 0 "A" σ' = Returned (VRef 3) σ')
  /\ (exists r σ',
        getTypeDefinition 2 (generic "Partial" [reference "A"]) demo_state_A
        = Returned r σ'
        /\ heap σ' !! 3 = Some oA
        /\ resolve 0 "A" σ' = Returned (VRef 3) σ').
Proof.
  intros oA.
  assert (key_literals (string_literal_type "a") ["a"]) as HK.
  { split; [reflexivity|]. apply not_elem_of_nil. }
  split; [repeat split; apply not_elem_of_nil|].
  destruct (operators_over_cached_declaration 0 "A" [] [] demo_state_A 3 oA
              eq_refl eq_refl eq_refl) as [Homit Hpartial].
  split.
  - destruct (Homit (string_literal_type "a") ["a"] 2
                [("a", VRef 0); ("b", VRef 1)] [VStr "a"] HK
                (fun k _ => not_elem_of_nil k) eq_refl eq_refl eq_refl
                eq_refl)
      as (r & σ' & Hrun & _ & Hp & _ & Hold & Hres).
    exists r, σ'. split; [exact Hrun|]. split; [|split].
    + refine (eq_trans (Hold 3 _ _) _); [cbn; lia|lia|reflexivity].
    + exact Hp.
    + apply Hres.
  - destruct Hpartial as (r & σ' & Hrun & _ & Hold & Hres).
    exists r, σ'. split; [exact Hrun|]. split.
    + refine (eq_trans (Hold 3 _) _); [cbn; lia|reflexivity].
    + apply Hres.
Defined.

(** After [Partial<A>] the cache still answers [A] with the object it
    held before, and that object reads as the schema derived for [A],
    [required] included. *)
Lemma partial_leaves_cache_intact :
  let derived :=
    JObj
      [("type", JStr "object");
       ("properties",
        JObj [("a", JObj [("type", JStr "string")]);
              ("b", JObj [("type", JStr "number")])]);
       ("required", JArr [JStr "a"])] in
  exists v σ v' σ',
    resolve 2 "A" empty_state = Returned v σ
    /\ snapshot 4 (heap σ) v = Some derived
    /\ (getTypeDefinition 2 (generic "Partial" [reference "A"]) ;;;
        resolve 0 "A") σ = Returned v' σ'
    /\ v' = v
    /\ snapshot 4 (heap σ') v' = Some derived.
Proof. eexists _, _, _, _. repeat split; reflexivity. Qed.

(** C9 at [Partial<{ a: string, b?: number }>]. *)
Lemma partial_drops_required_witness :
  getTypeDefinition 2 demo_A empty_state
  = Returned (VRef 3) (mkState ∅ demo_heap_A)
  /\ getTypeDefinition 3 (generic "Partial" [demo_A]) empty_state
     = Returned (VRef 4)
         (mkState ∅
            [[("type", VStr "string")];
             [("type", VStr "number")];
             [("a", VRef 0); ("b", VRef 1)];
             [("type", VStr "object"); ("properties", VRef 2)];
             [("type", VStr "object"); ("properties", VRef 2)]]).
Proof.
  split; [reflexivity|].
  destruct (partial_drops_required 2 [] demo_A [] empty_state (VRef 3)
              (mkState ∅ demo_heap_A) eq_refl)
    as (l & o & Hl & Ho & Hrun & _).
  injection Hl as <-. injection Ho as <-. exact Hrun.
Defined.

(** A tag named [required] on the [Partial] node puts the field back. *)
Lemma partial_with_required_tag :
  exists l σ o,
    getTypeDefinition 3
      (TypeReferenceNode [("required", Some "all")] "Partial" (Some [demo_A]))
      empty_state = Returned (VRef l) σ
    /\ heap σ !! l = Some o
    /\ obj_get "required" o = Some (VStr "all").
Proof. eexists _, _, _. repeat split; reflexivity. Qed.

(** C10 at [Exclude<A, ...>] and [Extract<..., A>], the other operand being
    a node that has no derivation. *)
Lemma exclude_extract_degenerate_witness :
  getTypeDefinition 2 demo_A empty_state
  = Returned (VRef 3) (mkState ∅ demo_heap_A)
  /\ getTypeDefinition 3 (generic "Exclude" [demo_A; OtherTypeNode []])
       empty_state
     = Returned (VRef 4)
         (mkState ∅
            (demo_heap_A ++
               [[("type", VStr "object"); ("properties", VRef 2);
                 ("required", VArr [VStr "a"])]]))
  /\ getTypeDefinition 3 (generic "Extract" [OtherTypeNode []; demo_A])
       empty_state
     = Returned (VRef 4)
         (mkState ∅
            (demo_heap_A ++
               [[("type", VStr "object"); ("properties", VRef 2);
                 ("required", VArr [VStr "a"])]])).
Proof.
  split; [reflexivity|]. split.
  - destruct (proj1 (exclude_extract_degenerate 2 [] demo_A (OtherTypeNode [])
                       empty_state (VRef 3) (mkState ∅ demo_heap_A)) eq_refl)
      as (l & o & Hl & Ho & Hrun).
    injection Hl as <-. injection Ho as <-. exact Hrun.
  - destruct (proj2 (exclude_extract_degenerate 2 [] (OtherTypeNode []) demo_A
                       empty_state (VRef 3) (mkState ∅ demo_heap_A)) eq_refl)
      as (l & o & Hl & Ho & Hrun).
    injection Hl as <-. injection Ho as <-. exact Hrun.
Defined.

(** * The further properties at explicit inputs *)



(** X3 at a bare reference to [A], with [A] in the cache. *)
Lemma cache_entries_are_written_once_witness :
  exists v σ',
    getTypeDefinition 1 (reference "A") demo_state_A = Returned v σ'
    /\ length (heap demo_state_A) <= length (heap σ')
    /\ resolved σ' !! "A" = Some (VRef 3).
Proof.
  eexists _, _. split; [reflexivity|].
  destruct (cache_entries_are_written_once 1 demo_state_A _
              (or_introl
                 (ex_intro _ (reference "A") (ex_intro _ _ eq_refl))))
    as [Hlen Hcache].
  split; [exact Hlen|]. apply Hcache; reflexivity.
Defined.

(** X4 at the same derivation: the copy of [A]'s schema is at address 4. *)
Lemma derivation_returns_a_new_object_witness :
  exists σ',
    getTypeDefinition 1 (reference "A") demo_state_A = Returned (VRef 4) σ'
    /\ exists l o,
         VRef 4 = VRef l /\ heap σ' !! l = Some o
         /\ length (heap demo_state_A) <= l
         /\ heap demo_state_A !! l = None.
Proof.
  eexists. split; [reflexivity|].
  exact (derivation_returns_a_new_object 1 (reference "A") demo_state_A
           _ _ eq_refl).
Defined.


(** X6 at the projection of [A]'s cached schema on the key [a]. *)
Lemma pickProperties_leaves_the_store_intact_witness :
  exists r σ',
    pickProperties 1 (VRef 3) (VArr [VStr "a"]) demo_state_A = Returned r σ'
    /\ resolved σ' = resolved demo_state_A
    /\ heap σ' !! 2 = Some [("a", VRef 0); ("b", VRef 1)]
    /\ heap σ' !! 3 = heap demo_state_A !! 3.
Proof.
  eexists _, _. split; [reflexivity|].
  destruct (pickProperties_leaves_the_store_intact 1 (VRef 3)
              (VArr [VStr "a"]) demo_state_A _ _ eq_refl)
    as (Hc & _ & Hold).
  split; [exact Hc|]. split.
  - refine (eq_trans (Hold 2 _) _); [cbn; lia|reflexivity].
  - apply Hold. cbn. lia.
Defined.

(** X7 at [A]'s cached schema and the keys [b], [c] and [constructor]:
    [c] is no property, [constructor] is answered by [Object.prototype],
    and [b] is not required. *)
Lemma pickProperties_on_object_schema_witness :
  pickProperties 1 (VRef 3)
    (VArr [VStr "b"; VStr "c"; VStr "constructor"]) demo_state_A
  = Returned (VRef 5)
      (mkState {[ "A" := VRef 3 ]}
         (demo_heap_A ++
            [[("b", VRef 1); ("c", VUndef);
              ("constructor", VBuiltin "constructor")];
             [("type", VStr "object"); ("properties", VRef 4);
              ("required", VArr [])]])).
Proof.
  assert ("__proto__" ∉ ["b"; "c"; "constructor"]) as Hks.
  { rewrite !not_elem_of_cons. repeat split; try discriminate.
    apply not_elem_of_nil. }
  destruct (pickProperties_on_object_schema 0 3
              [("type", VStr "object"); ("properties", VRef 2);
               ("required", VArr [VStr "a"])]
              2 [("a", VRef 0); ("b", VRef 1)] [VStr "a"]
              ["b"; "c"; "constructor"]
              {[ "A" := VRef 3 ]} demo_heap_A
              eq_refl eq_refl eq_refl eq_refl eq_refl Hks) as [Hrun _].
  exact Hrun.
Defined.

(** X8 at [A]'s cached schema and the key [a]. *)
Lemma pickProperties_twice_witness :
  let first :=
    [("type", VStr "object"); ("properties", VRef 4);
     ("required", VArr [VStr "a"])] in
  let σ1 :=
    mkState {[ "A" := VRef 3 ]} (demo_heap_A ++ [[("a", VRef 0)]; first]) in
  pickProperties 1 (VRef 3) (VArr [VStr "a"]) demo_state_A
  = Returned (VRef 5) σ1
  /\ pickProperties 1 (VRef 5) (VArr [VStr "a"]) σ1
     = Returned (VRef 7)
         (mkState {[ "A" := VRef 3 ]}
            (heap σ1 ++
               [[("a", VRef 0)];
                [("type", VStr "object"); ("properties", VRef 6);
                 ("required", VArr [VStr "a"])]])).
Proof.
  intros first σ1.
  destruct (pickProperties_twice 0 3
              [("type", VStr "object"); ("properties", VRef 2);
               ("required", VArr [VStr "a"])]
              2 [("a", VRef 0); ("b", VRef 1)] [VStr "a"] ["a"]
              {[ "A" := VRef 3 ]} demo_heap_A
              eq_refl eq_refl eq_refl eq_refl eq_refl)
    as (picked & first' & Hrun1 & Hrun2).
  assert (pickProperties 1 (VRef 3) (VArr [VStr "a"]) demo_state_A
          = Returned (VRef 5) σ1) as Hc by reflexivity.
  pose proof (eq_trans (eq_sym Hc) Hrun1) as Heq.
  injection Heq as <- <-.
  split; [exact Hrun1|exact Hrun2].
Defined.

(** X9 at [{type: "string"}], and at [Pick<string, "a">] and
    [Omit<string, "a">]. *)
Lemma projection_of_other_schemas_is_undefined_witness :
  let σ := mkState ∅ [[("type", VStr "string")]] in
  pickProperties 1 (VRef 0) (VArr [VStr "a"]) σ = Returned VUndef σ
  /\ dropProperties 1 (VRef 0) (VArr [VStr "a"]) σ = Returned VUndef σ
  /\ (exists ko,
        getTypeDefinition 2
          (generic "Pick" [keyword StringKeyword; string_literal_type "a"])
          empty_state
        = Returned (VRef 2) (mkState ∅ (heap σ ++ [ko; []])))
  /\ (exists ko,
        getTypeDefinition 2
          (generic "Omit" [keyword StringKeyword; string_literal_type "a"])
          empty_state
        = Returned (VRef 2) (mkState ∅ (heap σ ++ [ko; []]))).
Proof.
  intros σ.
  destruct (projection_of_other_schemas_is_undefined 0 0
              [("type", VStr "string")] σ eq_refl eq_refl eq_refl)
    as [Hproj Hderive].
  assert (key_literals (string_literal_type "a") ["a"]) as HK.
  { split; [reflexivity|]. apply not_elem_of_nil. }
  destruct (Hproj (VArr [VStr "a"])) as [Hpick Hdrop].
  split; [exact Hpick|]. split; [exact Hdrop|]. split.
  - exact (Hderive [] "Pick" (keyword StringKeyword)
             (string_literal_type "a") [] ["a"] empty_state
             (or_introl eq_refl) eq_refl HK).
  - exact (Hderive [] "Omit" (keyword StringKeyword)
             (string_literal_type "a") [] ["a"] empty_state
             (or_intror eq_refl) eq_refl HK).
Defined.

(** X10 at [A]'s cached schema and [undefined] for the keys. *)
Lemma projection_needs_an_array_of_keys_witness :
  pickProperties 1 (VRef 3) VUndef demo_state_A = Thrown TypeError
  /\ dropProperties 1 (VRef 3) VUndef demo_state_A = Thrown TypeError.
Proof.
  apply (projection_needs_an_array_of_keys 0 3
           [("type", VStr "object"); ("properties", VRef 2);
            ("required", VArr [VStr "a"])] VUndef demo_state_A
           eq_refl eq_refl).
  intros ks. discriminate.
Defined.

(** X11 at [Required<Partial<A>>], whose argument has no [required], at
    [Required<{ b?: string, 1?: number }>], whose second name is an array
    index, and at [Required<string>]. *)
Lemma required_lists_every_property_witness :
  (exists σ',
     getTypeDefinition 3
       (generic "Required" [generic "Partial" [reference "A"]]) demo_state_A
     = Returned (VRef 6) σ'
     /\ heap σ' !! 5
        = Some [("type", VStr "object"); ("properties", VRef 2);
                ("required", VArr [VStr "a"; VStr "b"])])
  /\ (exists σ',
        getTypeDefinition 3
          (generic "Required"
             [TypeLiteralNode []
                [PropertySignature "b" true (Some (keyword StringKeyword));
                 PropertySignature "1" true (Some (keyword NumberKeyword))]])
          empty_state
        = Returned (VRef 4) σ'
        /\ heap σ' !! 4
           = Some [("type", VStr "object"); ("properties", VRef 2);
                   ("required", VArr [VStr "1"; VStr "b"])])
  /\ getTypeDefinition 2 (generic "Required" [keyword StringKeyword])
       empty_state = Thrown TypeError.
Proof.
  split; [|split].
  - destruct (required_lists_every_property 2 []
                (generic "Partial" [reference "A"]) [] demo_state_A _ _
                eq_refl) as (a & o & Ha & Ho & Hrun & _).
    injection Ha as <-. injection Ho as <-.
    destruct (Hrun 2 [("a", VRef 0); ("b", VRef 1)] eq_refl eq_refl)
      as [Heq _].
    eexists. split; [exact Heq|reflexivity].
  - destruct (required_lists_every_property 2 []
                (TypeLiteralNode []
                   [PropertySignature "b" true
                      (Some (keyword StringKeyword));
                    PropertySignature "1" true
                      (Some (keyword NumberKeyword))]) [] empty_state _ _
                eq_refl) as (a & o & Ha & Ho & Hrun & _).
    injection Ha as <-. injection Ho as <-.
    destruct (Hrun 2 [("b", VRef 0); ("1", VRef 1)] eq_refl eq_refl)
      as [Heq _].
    eexists. split; [exact Heq|reflexivity].
  - destruct (required_lists_every_property 1 [] (keyword StringKeyword) []
                empty_state _ _ eq_refl) as (a & o & Ha & Ho & _ & Hnone).
    injection Ha as <-. injection Ho as <-.
    exact (Hnone eq_refl).
Defined.

(** X12 at the toy checker's types, which are their printed forms. *)
Lemma isSameType_is_an_equivalence_witness :
  isSameType ("A" : tsType) "A" = true
  /\ isSameType ("A" : tsType) "B" = isSameType ("B" : tsType) "A"
  /\ isSameType ("A" : tsType) "A" = true.
Proof.
  destruct isSameType_is_an_equivalence as (Hrefl & Hsym & Htrans).
  split; [apply Hrefl|]. split; [apply Hsym|].
  exact (Htrans "A" "A" "A" (Hrefl "A") (Hrefl "A")).
Defined.

(** X13 at the keys [A], at [A], [Missing], [A], and at the key
    [constructor] of a file that declares it. *)
Lemma driver_fills_the_cache_or_stops_witness :
  driver 2 ["A"] empty_state = Returned [VRef 3] demo_state_A
  /\ resolved demo_state_A !! "A" = Some (VRef 3)
  /\ driver 2 ["A"; "Missing"; "A"] empty_state
     = Thrown (NotFound "Missing")
  /\ Forall2 (fun k v =>
                truthy v = true /\ map_lookup (resolved empty_state) k = v
                /\ (~ In k Object_prototype ->
                    resolved empty_state !! k = Some v))
       ["constructor"] [VBuiltin "constructor"].
Proof.
  destruct (driver_fills_the_cache_or_stops 2 empty_state) as [Hfill Hstop].
  split; [reflexivity|]. split; [|split].
  - destruct (Hfill ["A"] [VRef 3] demo_state_A eq_refl) as [_ Hall].
    apply Forall2_cons_1 in Hall as [(_ & _ & Hown) _].
    exact (Hown (not_in_Object_prototype "A" eq_refl)).
  - exact (Hstop ["A"] "Missing" ["A"] [VRef 3] demo_state_A
             (NotFound "Missing") eq_refl eq_refl).
  - destruct (@driver_fills_the_cache_or_stops constructor_env 1 empty_state)
      as [Hfill' _].
    exact (proj2 (Hfill' ["constructor"] [VBuiltin "constructor"]
                    empty_state eq_refl)).
Defined.


(** X15 at [Partial<A>], with [A] in the cache. *)
Lemma without_Omit_stored_objects_are_intact_witness :
  exists v σ',
    getTypeDefinition 2 (generic "Partial" [reference "A"]) demo_state_A
    = Returned v σ'
    /\ heap σ' !! 3 = heap demo_state_A !! 3
    /\ heap σ' !! 2 = heap demo_state_A !! 2.
Proof.
  eexists _, _. split; [reflexivity|].
  assert (forall name body,
            decls !! name = Some body -> omit_free body = true) as Htable.
  { intros name body H.
    change (({[ "A" := demo_A ]} : gmap string TypeNode) !! name = Some body)
      in H.
    apply lookup_singleton_Some in H as [_ <-]. reflexivity. }
  pose proof (without_Omit_stored_objects_are_intact 2 demo_state_A _ _
                Htable
                (or_introl
                   (ex_intro _ (generic "Partial" [reference "A"])
                      (conj eq_refl eq_refl)))) as Hold.
  split; apply Hold; cbn; lia.
Defined.

(** X16 at [A & A], with [A] in the cache. *)
Lemma intersection_members_are_separate_objects_witness :
  let oA :=
    [("type", VStr "object"); ("properties", VRef 2);
     ("required", VArr [VStr "a"])] in
  let σ1 := mkState {[ "A" := VRef 3 ]} (demo_heap_A ++ [oA; oA]) in
  derived_in_turn 1 [reference "A"; reference "A"] demo_state_A [4; 5] σ1
  /\ getTypeDefinition 2
       (IntersectionTypeNode [] [reference "A"; reference "A"]) demo_state_A
     = Returned (VRef 6)
         (mkState {[ "A" := VRef 3 ]}
            (heap σ1 ++ [[("allOf", VArr [VRef 4; VRef 5])]])).
Proof.
  intros oA σ1.
  assert (derived_in_turn 1 [reference "A"; reference "A"] demo_state_A
            [4; 5] σ1) as Hturn.
  { eexists. split; [reflexivity|]. eexists. split; reflexivity. }
  split; [exact Hturn|].
  exact (proj2 (intersection_members_are_separate_objects 1 []
                  [reference "A"; reference "A"] demo_state_A)
           [4; 5] σ1 Hturn).
Defined.

(** X17 at [type A = { a: string, b?: number }]: the first [resolve]
    derives and caches, the second is answered from the cache without
    fuel; an undeclared name is not found. *)
Lemma resolve_memoises_witness :
  resolve 2 "A" empty_state = Returned (VRef 3) demo_state_A
  /\ resolve 0 "A" demo_state_A = Returned (VRef 3) demo_state_A
  /\ resolve 1 "Missing" empty_state = Thrown (NotFound "Missing").
Proof.
  destruct (resolve_memoises "A" empty_state) as (_ & _ & Hmiss & Hagain).
  destruct (resolve_memoises "Missing" empty_state) as (_ & Hnone & _).
  pose proof (not_in_Object_prototype "A" eq_refl) as HA.
  split; [|split].
  - rewrite (Hmiss 2 demo_A HA eq_refl eq_refl). reflexivity.
  - apply (Hagain 2). rewrite (Hmiss 2 demo_A HA eq_refl eq_refl).
    reflexivity.
  - apply Hnone; [apply not_in_Object_prototype| |]; reflexivity.
Defined.
